(** * kinpy: building a kinematic chain from an SDF model (src/kinpy/sdf.py)

    A shallow embedding of [sdf.py] and the properties of its root discovery,
    recursive frame construction and visual conversion.

    Python values are modelled as follows.
    - [str] is [string]; [==] on strings is [String.eqb]; [+] is [String.append].
    - a numpy vector is a [list scalar], slices [pose[:3]] and [pose[3:]] are
      [take 3] and [drop 3]; [None] is [option]'s [None].
    - [dict] lookups ([lmap[k]], [JOINT_TYPE_MAP[k]]) are [gmap] lookups that
      raise [KeyError] on a missing key.
    - exceptions and unbounded recursion are the three-way [outcome] type.
    - the modules [transform] and [frame], which [sdf.py] only imports, are the
      operations of the class [TransformAlg] and plain records.
    - the recursion of [_build_chain_recurse] is bounded by a fuel argument;
      the interpreter's own recursion limit is not modelled, so a run that
      returns at no fuel is a run that does not terminate. *)

From Stdlib Require Import String List Arith Lia.
From stdpp Require Import base option list gmap strings.

Open Scope string_scope.
Open Scope list_scope.

(** ** Outcomes: a value, a raised exception, or recursion that never returns *)

(** Where the failing link lookup stands in the source. *)
Inductive site : Type :=
  | RootSite     (* root_link = lmap[joints[i].parent] *)
  | ParentSite   (* link_p = lmap[j.parent] *)
  | ChildSite.   (* link_c = lmap[j.child] *)

Inductive exn : Type :=
  | KeyError_link (s : site) (key : string)
  | KeyError_joint_type (key : string)
  | UnboundLocalError (var : string)
  | IndexError.

Inductive outcome (A : Type) : Type :=
  | Ok (a : A)
  | Raise (e : exn)
  | NoFuel.

Arguments Ok {A} a.
Arguments Raise {A} e.
Arguments NoFuel {A}.

(** Sequencing: an exception or a missing return cuts the rest short.
    The notation [x ← m; k] is stdpp's. *)
#[global] Instance outcome_bind : MBind outcome := fun A B k m =>
  match m with
  | Ok a => k a
  | Raise e => Raise e
  | NoFuel => NoFuel
  end.

(** [KeyError] is Python's lookup error, whichever dictionary raised it. *)
Definition is_lookup_error (e : exn) : bool :=
  match e with
  | KeyError_link _ _ | KeyError_joint_type _ => true
  | UnboundLocalError _ | IndexError => false
  end.

(** ** The imported [transform] module *)

Class TransformAlg : Type := {
  scalar : Type;
  Transform : Type;
  (** [transform.Transform(rot=..., pos=...)], [None] for an omitted argument *)
  Transform_new : option (list scalar) -> option (list scalar) -> Transform;
  (** [a * b] *)
  tmul : Transform -> Transform -> Transform;
  (** [a.inverse()] *)
  tinverse : Transform -> Transform;
  (** [np.deg2rad] *)
  deg2rad : list scalar -> list scalar;
  (** the float literals [90.0] and [0.0] *)
  f90 : scalar;
  f0 : scalar
}.

(** A term model of the transform module, used to run the code on inputs. *)
Module TermModel.

Inductive term : Type :=
  | TNew (rot pos : option (list Z))
  | TMul (a b : term)
  | TInv (a : term).

#[export] Instance alg : TransformAlg := {|
  scalar := Z;
  Transform := term;
  Transform_new := TNew;
  tmul := TMul;
  tinverse := TInv;
  deg2rad := fun v => v;
  f90 := 90%Z;
  f0 := 0%Z
|}.

End TermModel.

(** A model of the transform module with translations only, in which the
    transforms form a group. *)
Module TranslationModel.

Definition vec : Type := (Z * Z * Z)%type.

Definition of_pos (pos : option (list Z)) : vec :=
  match pos with
  | Some [x; y; z] => (x, y, z)
  | _ => (0, 0, 0)
  end%Z.

Definition add (a b : vec) : vec :=
  (a.1.1 + b.1.1, a.1.2 + b.1.2, a.2 + b.2)%Z.

Definition neg (a : vec) : vec := (- a.1.1, - a.1.2, - a.2)%Z.

#[export] Instance alg : TransformAlg := {|
  scalar := Z;
  Transform := vec;
  Transform_new := fun _ pos => of_pos pos;
  tmul := add;
  tinverse := neg;
  deg2rad := fun v => v;
  f90 := 90%Z;
  f0 := 0%Z
|}.

End TranslationModel.

Section Sdf.
Context {TA : TransformAlg}.

(** ** Input records (the parsed SDF model) *)

Inductive Geometry : Type :=
  | Mesh (filename : string)
  | Cylinder (radius length : scalar)
  | Box (size : list scalar)
  | Sphere (radius : scalar)
  | OtherGeometry.   (* an object of any other class, or None *)

Record VisualRecord : Type := mkVisualRecord {
  vr_pose : option (list scalar);
  vr_geometry : Geometry
}.

Record LinkRecord : Type := mkLinkRecord {
  lr_name : string;
  lr_pose : option (list scalar);
  lr_visuals : list VisualRecord
}.

Record JointAxis : Type := mkJointAxis { xyz : list scalar }.

Record JointRecord : Type := mkJointRecord {
  jr_name : string;
  jr_type : string;
  jr_parent : string;
  jr_child : string;
  jr_axis : JointAxis
}.

Record Robot : Type := mkRobot {
  link_map : gmap string LinkRecord;
  joints_of : list JointRecord
}.

(** ** Output records (the imported [frame] and [chain] modules) *)

Inductive GeomParam : Type :=
  | P_filename (f : string)
  | P_radius_length (r l : scalar)
  | P_size (s : list scalar)
  | P_radius (r : scalar)
  | P_None.

Record Visual : Type := mkVisual {
  v_offset : Transform;
  v_geom_type : option string;
  v_geom_param : GeomParam
}.

Record Link : Type := mkLink {
  l_name : string;
  l_offset : Transform;
  l_visuals : list Visual
}.

(** The constructor arguments as passed; [None] is an omitted argument, for
    which [frame.Joint] takes its default. *)
Record Joint : Type := mkJoint {
  j_name : option string;
  j_offset : Transform;
  j_joint_type : option string;
  j_axis : option (list scalar)
}.

#[warnings="-register-all"]
Inductive Frame : Type :=
  mkFrame (name : string) (joint : Joint) (link : Link) (children : list Frame).

Definition f_name (f : Frame) : string := let 'mkFrame n _ _ _ := f in n.
Definition f_joint (f : Frame) : Joint := let 'mkFrame _ j _ _ := f in j.
Definition f_link (f : Frame) : Link := let 'mkFrame _ _ l _ := f in l.
Definition f_children (f : Frame) : list Frame := let 'mkFrame _ _ _ c := f in c.

(** [frame.children = cs] *)
Definition set_children (f : Frame) (cs : list Frame) : Frame :=
  mkFrame (f_name f) (f_joint f) (f_link f) cs.

Record Chain : Type := mkChain { chain_root : Frame }.

(** ** sdf.py *)

Definition JOINT_TYPE_MAP : gmap string string :=
  list_to_map [("revolute", "revolute"); ("prismatic", "prismatic"); ("fixed", "fixed")].

Definition _convert_transform (pose : option (list scalar)) : Transform :=
  match pose with
  | None => Transform_new None None
  | Some p => Transform_new (Some (drop 3 p)) (Some (take 3 p))
  end.

(** [transform.Transform(rot=np.deg2rad([90.0, 0.0, 0.0]))] *)
Definition rot90_x : Transform := Transform_new (Some (deg2rad [f90; f0; f0])) None.

(** The body of the loop of [_convert_visuals] for one entry. *)
Definition convert_visual (v : VisualRecord) : Visual :=
  let v_tf := _convert_transform (vr_pose v) in
  match vr_geometry v with
  | Mesh filename => mkVisual v_tf (Some "mesh") (P_filename filename)
  | Cylinder radius length =>
      let v_tf := tmul v_tf rot90_x in
      mkVisual v_tf (Some "cylinder") (P_radius_length radius length)
  | Box size => mkVisual v_tf (Some "box") (P_size size)
  | Sphere radius => mkVisual v_tf (Some "sphere") (P_radius radius)
  | OtherGeometry => mkVisual v_tf None P_None
  end.

(** [vlist = []; for v in visuals: ...; vlist.append(...)] *)
Definition _convert_visuals (visuals : list VisualRecord) : list Visual :=
  fold_left (fun vlist v => vlist ++ [convert_visual v]) visuals [].

(** [seq[i]]; Python raises [IndexError] out of range. *)
Definition index {A : Type} (l : list A) (i : nat) : outcome A :=
  match l !! i with
  | Some a => Ok a
  | None => Raise IndexError
  end.

(** [seq[i] = v] *)
Definition set_item {A : Type} (l : list A) (i : nat) (v : A) : outcome (list A) :=
  if decide (i < length l) then Ok (<[i:=v]> l) else Raise IndexError.

(** [range(a, b)] *)
Definition range (a b : nat) : list nat := seq a (b - a).

(** [for x in xs: s = body(x, s)] *)
Fixpoint for_each {S : Type} (xs : list nat) (body : nat -> S -> outcome S) (s : S)
  : outcome S :=
  match xs with
  | [] => Ok s
  | x :: xs' => s' ← body x s; for_each xs' body s'
  end.

(** [lmap[key]] *)
Definition lookup_link (s : site) (lmap : gmap string LinkRecord) (key : string)
  : outcome LinkRecord :=
  match lmap !! key with
  | Some l => Ok l
  | None => Raise (KeyError_link s key)
  end.

(** [JOINT_TYPE_MAP[key]] *)
Definition lookup_joint_type (key : string) : outcome string :=
  match JOINT_TYPE_MAP !! key with
  | Some t => Ok t
  | None => Raise (KeyError_joint_type key)
  end.

(** The body of the [if] in [_build_chain_recurse] for a matching joint [j];
    [recurse] is the recursive call.  The frame is created by name and its
    joint and link assigned next; the recursive call reads only its link. *)
Definition expand_joint (recurse : Frame -> outcome (list Frame))
    (lmap : gmap string LinkRecord) (j : JointRecord) : outcome Frame :=
  link_p ← lookup_link ParentSite lmap (jr_parent j);
  link_c ← lookup_link ChildSite lmap (jr_child j);
  let t_p := _convert_transform (lr_pose link_p) in
  let t_c := _convert_transform (lr_pose link_c) in
  joint_type ← lookup_joint_type (jr_type j);
  let joint := mkJoint (Some (jr_name j)) (tmul (tinverse t_p) t_c)
                       (Some joint_type) (Some (xyz (jr_axis j))) in
  let link := mkLink (lr_name link_c) (Transform_new None None)
                     (_convert_visuals (lr_visuals link_c)) in
  let child_frame := mkFrame (jr_child j +:+ "_frame") joint link [] in
  children ← recurse child_frame;
  Ok (set_children child_frame children).

(** [for j in joints: if j.parent == root_frame.link.name: ...; children.append(child_frame)] *)
Fixpoint for_joints (recurse : Frame -> outcome (list Frame))
    (lmap : gmap string LinkRecord) (root_frame : Frame)
    (js : list JointRecord) (children : list Frame) : outcome (list Frame) :=
  match js with
  | [] => Ok children
  | j :: js' =>
      if String.eqb (jr_parent j) (l_name (f_link root_frame)) then
        child_frame ← expand_joint recurse lmap j;
        for_joints recurse lmap root_frame js' (children ++ [child_frame])
      else for_joints recurse lmap root_frame js' children
  end.

(** Python's recursion, with [fuel] bounding its depth: [NoFuel] stands for a
    call that has not returned within that depth. *)
Fixpoint _build_chain_recurse (fuel : nat) (root_frame : Frame)
    (lmap : gmap string LinkRecord) (joints : list JointRecord)
  : outcome (list Frame) :=
  match fuel with
  | O => NoFuel
  | S fuel' =>
      for_joints (fun child_frame => _build_chain_recurse fuel' child_frame lmap joints)
                 lmap root_frame joints []
  end.

(** The body of the inner loop of the root scan. *)
Definition mark_pair (joints : list JointRecord) (i j : nat) (has_root : list bool)
  : outcome (list bool) :=
  ji ← index joints i;
  jj ← index joints j;
  if String.eqb (jr_parent ji) (jr_child jj) then set_item has_root i false
  else if String.eqb (jr_parent jj) (jr_child ji) then set_item has_root j false
  else Ok has_root.

(** Lines 80-87: the list [has_root] after both loops. *)
Definition root_flags (joints : list JointRecord) : outcome (list bool) :=
  let n_joints := length joints in
  let has_root := replicate (length joints) true in
  for_each (range 0 n_joints)
    (fun i has_root =>
       for_each (range (i + 1) n_joints) (fun j has_root => mark_pair joints i j has_root)
                has_root)
    has_root.

(** Lines 88-91: the loop with [break]; [None] is [root_link] left unbound. *)
Fixpoint find_root (lmap : gmap string LinkRecord) (joints : list JointRecord)
    (has_root : list bool) (indices : list nat) : outcome (option LinkRecord) :=
  match indices with
  | [] => Ok None
  | i :: indices' =>
      b ← index has_root i;
      if b : bool then
        ji ← index joints i;
        root_link ← lookup_link RootSite lmap (jr_parent ji);
        Ok (Some root_link)
      else find_root lmap joints has_root indices'
  end.

(** Reading a local variable. *)
Definition read_local {A : Type} (var : string) (v : option A) : outcome A :=
  match v with
  | Some a => Ok a
  | None => Raise (UnboundLocalError var)
  end.

(** Lines 92-94. *)
Definition make_root_frame (root_link : LinkRecord) : Frame :=
  mkFrame (lr_name root_link +:+ "_frame")
          (mkJoint None (_convert_transform (lr_pose root_link)) None None)
          (mkLink (lr_name root_link) (Transform_new None None)
                  (_convert_visuals (lr_visuals root_link)))
          [].

(** [build_chain_from_sdf], from the parsed model on: the XML parser that
    produces [robot] is outside this file. *)
Definition build_chain_from_sdf (fuel : nat) (robot : Robot) : outcome Chain :=
  let lmap := link_map robot in
  let joints := joints_of robot in
  let n_joints := length joints in
  has_root ← root_flags joints;
  root_link_var ← find_root lmap joints has_root (range 0 n_joints);
  root_link ← read_local "root_link" root_link_var;
  let root_frame := make_root_frame root_link in
  children ← _build_chain_recurse fuel root_frame lmap joints;
  Ok (mkChain (set_children root_frame children)).

(** Lines 80-91 together: the root link, or the failure of reading
    [root_link] on line 92. *)
Definition discover_root (robot : Robot) : outcome LinkRecord :=
  has_root ← root_flags (joints_of robot);
  root_link_var ← find_root (link_map robot) (joints_of robot) has_root
                            (range 0 (length (joints_of robot)));
  read_local "root_link" root_link_var.

(** ** Vocabulary of the properties *)

(** The index whose flag the pair [(i, j)] clears, if any. *)
Definition target (joints : list JointRecord) (i j : nat) : option nat :=
  match joints !! i, joints !! j with
  | Some ji, Some jj =>
      if String.eqb (jr_parent ji) (jr_child jj) then Some i
      else if String.eqb (jr_parent jj) (jr_child ji) then Some j
      else None
  | _, _ => None
  end.

Definition clear_flag (has_root : list bool) (t : option nat) : list bool :=
  match t with
  | Some t => <[t:=false]> has_root
  | None => has_root
  end.

(** The indices cleared by all pairs, in scan order. *)
Definition all_targets (joints : list JointRecord) : list (option nat) :=
  flat_map (fun i => map (target joints i) (range (i + 1) (length joints)))
           (range 0 (length joints)).

(** Joint [k] is disqualified by the scan: its parent is the child of a later
    joint, or the child of an earlier joint whose own parent is not the
    child of [k]. *)
Definition disqualified (joints : list JointRecord) (k : nat) : bool :=
  match joints !! k with
  | None => false
  | Some jk =>
      existsb (fun j => match joints !! j with
                        | Some jj => String.eqb (jr_parent jk) (jr_child jj)
                        | None => false
                        end)
              (range (k + 1) (length joints))
      || existsb (fun i => match joints !! i with
                           | Some ji => negb (String.eqb (jr_parent ji) (jr_child jk))
                                        && String.eqb (jr_parent jk) (jr_child ji)
                           | None => false
                           end)
                 (range 0 k)
  end.

(** The symmetric reading: joint [k] is disqualified when its parent is the
    child of any other joint. *)
Definition disqualified_symmetric (joints : list JointRecord) (k : nat) : bool :=
  match joints !! k with
  | None => false
  | Some jk =>
      existsb (fun m => negb (Nat.eqb m k)
                        && match joints !! m with
                           | Some jm => String.eqb (jr_parent jk) (jr_child jm)
                           | None => false
                           end)
              (range 0 (length joints))
  end.

(** The first joint, in input order, that is not disqualified. *)
Definition first_eligible (joints : list JointRecord) : option JointRecord :=
  k ← find (fun k => negb (disqualified joints k)) (range 0 (length joints));
  joints !! k.

(** The link map is keyed by link name, as the parser builds it
    ([link_map[link.name] = link]). *)
Definition lmap_keyed (lmap : gmap string LinkRecord) : Prop :=
  forall k l, lmap !! k = Some l -> lr_name l = k.

(** Some joint leads from link [x] to link [y]. *)
Definition edge (joints : list JointRecord) (x y : string) : Prop :=
  exists j, j ∈ joints /\ jr_parent j = x /\ jr_child j = y.

(** No link is its own descendant. *)
Definition acyclic (joints : list JointRecord) : Prop :=
  forall x, ~ tc (edge joints) x x.

(** Some cycle of joints can be reached from link [x]. *)
Definition has_cycle_from (joints : list JointRecord) (x : string) : Prop :=
  exists c, rtc (edge joints) x c /\ tc (edge joints) c c.

(** Every joint names links of the map and a type of the table. *)
Definition lookups_ok (lmap : gmap string LinkRecord) (joints : list JointRecord) : Prop :=
  forall j, j ∈ joints ->
    is_Some (lmap !! jr_parent j) /\ is_Some (lmap !! jr_child j)
    /\ is_Some (JOINT_TYPE_MAP !! jr_type j).

(** [p] lists the links met when following joints from [x]. *)
Fixpoint is_path (joints : list JointRecord) (x : string) (p : list string) : Prop :=
  match p with
  | [] => True
  | y :: p' => edge joints x y /\ is_path joints y p'
  end.

(** The frames strictly below [f], in traversal (pre-)order. *)
Fixpoint subframes (f : Frame) : list Frame :=
  match f with
  | mkFrame _ _ _ cs => flat_map (fun c => c :: subframes c) cs
  end.

(** The frame built for joint [j] between the links [link_p] and [link_c],
    with the children [cs]. *)
Definition child_frame_of (j : JointRecord) (link_p link_c : LinkRecord)
    (joint_type : string) (cs : list Frame) : Frame :=
  mkFrame (jr_child j +:+ "_frame")
          (mkJoint (Some (jr_name j))
                   (tmul (tinverse (_convert_transform (lr_pose link_p)))
                         (_convert_transform (lr_pose link_c)))
                   (Some joint_type) (Some (xyz (jr_axis j))))
          (mkLink (lr_name link_c) (Transform_new None None)
                  (_convert_visuals (lr_visuals link_c)))
          cs.

(** The pairs (frame, child frame) of the tree under [f], in traversal order. *)
Fixpoint parent_child_pairs (f : Frame) : list (Frame * Frame) :=
  match f with
  | mkFrame _ _ _ cs => flat_map (fun c => (f, c) :: parent_child_pairs c) cs
  end.

(** The loop of [_build_chain_recurse] without its accumulator. *)
Fixpoint children_of (recurse : Frame -> outcome (list Frame))
    (lmap : gmap string LinkRecord) (x : string) (js : list JointRecord)
  : outcome (list Frame) :=
  match js with
  | [] => Ok []
  | j :: js' =>
      if String.eqb (jr_parent j) x then
        child_frame ← expand_joint recurse lmap j;
        cs ← children_of recurse lmap x js';
        Ok (child_frame :: cs)
      else children_of recurse lmap x js'
  end.

(** [builds lmap joints x js cs]: scanning the joints [js] for the frame of
    link [x] yields the child frames [cs], every recursive call returning. *)
Inductive builds (lmap : gmap string LinkRecord) (joints : list JointRecord)
  : string -> list JointRecord -> list Frame -> Prop :=
  | builds_nil x : builds lmap joints x [] []
  | builds_skip x j js cs :
      jr_parent j <> x ->
      builds lmap joints x js cs ->
      builds lmap joints x (j :: js) cs
  | builds_match x j js link_p link_c joint_type gcs cs :
      jr_parent j = x ->
      lmap !! jr_parent j = Some link_p ->
      lmap !! jr_child j = Some link_c ->
      JOINT_TYPE_MAP !! jr_type j = Some joint_type ->
      builds lmap joints (lr_name link_c) joints gcs ->
      builds lmap joints x js cs ->
      builds lmap joints x (j :: js) (child_frame_of j link_p link_c joint_type gcs :: cs).

(** The joints form a tree rooted at link [root]: there is a joint, no two
    joints share a child link, [root] is the child of none, and the parent of
    every joint can be reached from [root]. *)
Definition single_rooted (joints : list JointRecord) (root : string) : Prop :=
  joints <> [] /\
  NoDup (map jr_child joints) /\
  (forall j, j ∈ joints -> jr_child j <> root) /\
  (forall j, j ∈ joints -> rtc (edge joints) root (jr_parent j)).

(** The link names of the frames in [cs] and below, in traversal order. *)
Definition frame_links (cs : list Frame) : list string :=
  map (fun c => l_name (f_link c)) (flat_map (fun c => c :: subframes c) cs).

(** The child frame of the pair [pc] is the frame of a joint below the link
    of its parent frame, with the offset computed from the two link poses. *)
Definition offset_from_joint (robot : Robot) (pc : Frame * Frame) : Prop :=
  exists j link_p link_c,
    j ∈ joints_of robot /\
    jr_parent j = l_name (f_link pc.1) /\
    f_name pc.2 = jr_child j +:+ "_frame" /\
    j_name (f_joint pc.2) = Some (jr_name j) /\
    link_map robot !! jr_parent j = Some link_p /\
    link_map robot !! jr_child j = Some link_c /\
    j_offset (f_joint pc.2)
    = tmul (tinverse (_convert_transform (lr_pose link_p)))
           (_convert_transform (lr_pose link_c)).

(** Frame [c] is the frame made for joint [j]: named after the joint's child,
    carrying the joint's name, and with the offset computed from the
    link-map entries of the joint's parent and child. *)
Definition frame_of_joint (robot : Robot) (j : JointRecord) (c : Frame) : Prop :=
  f_name c = jr_child j +:+ "_frame" /\
  j_name (f_joint c) = Some (jr_name j) /\
  exists link_p link_c,
    link_map robot !! jr_parent j = Some link_p /\
    link_map robot !! jr_child j = Some link_c /\
    j_offset (f_joint c)
    = tmul (tinverse (_convert_transform (lr_pose link_p)))
           (_convert_transform (lr_pose link_c)).

(** The joints that match frame [f] (those whose parent is the frame's link
    name) and the children of [f] correspond one to one, in order, each
    child being the frame made for its joint. *)
Definition joints_expanded_at (robot : Robot) (f : Frame) : Prop :=
  Forall2 (frame_of_joint robot)
          (List.filter (fun j => String.eqb (jr_parent j) (l_name (f_link f)))
                       (joints_of robot))
          (f_children f).

(** The child frame of the pair [pc] is the frame of a joint below the link
    of its parent frame, with the joint type the table gives for its tag. *)
Definition type_from_joint (robot : Robot) (pc : Frame * Frame) : Prop :=
  exists j,
    j ∈ joints_of robot /\
    jr_parent j = l_name (f_link pc.1) /\
    f_name pc.2 = jr_child j +:+ "_frame" /\
    is_Some (JOINT_TYPE_MAP !! jr_type j) /\
    j_joint_type (f_joint pc.2) = JOINT_TYPE_MAP !! jr_type j.

(** [reached lmap joints root x]: the run started on the frame of link
    [root] makes a recursive call on a frame of link [x].  A call is made
    for joint [j] of a reached frame once the joints before [j] have been
    scanned, each recursive call returning, and the lookups for [j] have
    succeeded. *)
Inductive reached (lmap : gmap string LinkRecord) (joints : list JointRecord)
    (root : string) : string -> Prop :=
  | reached_root : reached lmap joints root root
  | reached_child x pre j post cs link_p link_c joint_type :
      reached lmap joints root x ->
      joints = pre ++ j :: post ->
      jr_parent j = x ->
      builds lmap joints x pre cs ->
      lmap !! jr_parent j = Some link_p ->
      lmap !! jr_child j = Some link_c ->
      JOINT_TYPE_MAP !! jr_type j = Some joint_type ->
      reached lmap joints root (lr_name link_c).

(** Joint [j] is expanded: the scan of a reached frame arrives at [j], which
    matches the frame's link. *)
Definition expanded (lmap : gmap string LinkRecord) (joints : list JointRecord)
    (root : string) (j : JointRecord) : Prop :=
  exists x pre post cs,
    reached lmap joints root x /\ joints = pre ++ j :: post /\
    jr_parent j = x /\ builds lmap joints x pre cs.

(** The frames of the tree of [f], [f] first. *)
Definition all_frames (f : Frame) : list Frame := f :: subframes f.

(** The names of the frames the scan makes for link [x], in scan order. *)
Definition child_frame_names (joints : list JointRecord) (x : string) : list string :=
  map (fun j => jr_child j +:+ "_frame")
      (List.filter (fun j => String.eqb (jr_parent j) x) joints).

(** The child frame of the pair [pc] carries the link of the child of a joint
    below its parent frame, and that joint's name and axis. *)
Definition link_from_joint (robot : Robot) (pc : Frame * Frame) : Prop :=
  exists j link_c,
    j ∈ joints_of robot /\
    jr_parent j = l_name (f_link pc.1) /\
    link_map robot !! jr_child j = Some link_c /\
    f_link pc.2 = mkLink (lr_name link_c) (Transform_new None None)
                         (_convert_visuals (lr_visuals link_c)) /\
    j_name (f_joint pc.2) = Some (jr_name j) /\
    j_axis (f_joint pc.2) = Some (xyz (jr_axis j)).

(** No two joints are each other's parent and child. *)
Definition no_mutual_pair (joints : list JointRecord) : Prop :=
  forall i j ji jj,
    i <> j -> joints !! i = Some ji -> joints !! j = Some jj ->
    ~ (jr_parent ji = jr_child jj /\ jr_parent jj = jr_child ji).

(** The frames below [f] with their poses in the frame of the chain, [w]
    being the pose of [f]: each joint offset is composed on the right. *)
Fixpoint world_below (w : Transform) (f : Frame) : list (Frame * Transform) :=
  match f with
  | mkFrame _ _ _ cs =>
      flat_map (fun c => (c, tmul w (j_offset (f_joint c)))
                         :: world_below (tmul w (j_offset (f_joint c))) c) cs
  end.

(** The frames of the chain with their poses, the root at its joint offset. *)
Definition world_poses (root : Frame) : list (Frame * Transform) :=
  (root, j_offset (f_joint root)) :: world_below (j_offset (f_joint root)) root.

(** The pose [w] of frame [pc.1] is the converted pose of the link-map entry
    under the frame's link name. *)
Definition at_link_pose (lmap : gmap string LinkRecord) (pc : Frame * Transform) : Prop :=
  exists l, lmap !! l_name (f_link pc.1) = Some l /\
            pc.2 = _convert_transform (lr_pose l).

End Sdf.

(** * Concrete models *)

Module Models.
Import TermModel.

Definition link (n : string) (pose : option (list Z)) (visuals : list VisualRecord)
  : LinkRecord := mkLinkRecord n pose visuals.

Definition joint (n t p c : string) : JointRecord :=
  mkJointRecord n t p c (mkJointAxis [0; 0; 1]%Z).

(** The link map of a list of links, keyed as the parser keys it. *)
Definition link_map_of (links : list LinkRecord) : gmap string LinkRecord :=
  list_to_map (map (fun l => (lr_name l, l)) links).

Definition links3 : list LinkRecord :=
  [ link "A" None [];
    link "B" (Some [1; 2; 3; 0; 0; 0]%Z)
         [mkVisualRecord None (Cylinder 1%Z 2%Z); mkVisualRecord None OtherGeometry];
    link "C" (Some [4; 5; 6; 7; 8; 9]%Z) [mkVisualRecord None (Sphere 1%Z)] ].

(** A chain A -> B -> C, the joints listed out of order. *)
Definition arm : Robot :=
  mkRobot (link_map_of links3)
          [joint "j2" "prismatic" "B" "C"; joint "j1" "revolute" "A" "B"].

(** Two joints that point at each other. *)
Definition two_cycle : Robot :=
  mkRobot (link_map_of links3)
          [joint "j1" "revolute" "A" "B"; joint "j2" "revolute" "B" "A"].

(** Three joints in a ring: every joint is disqualified. *)
Definition ring : Robot :=
  mkRobot (link_map_of links3)
          [joint "j1" "revolute" "A" "B"; joint "j2" "revolute" "B" "C";
           joint "j3" "revolute" "C" "A"].

(** A joint from A to B and, apart from it, a joint from C to itself. *)
Definition stray_loop : Robot :=
  mkRobot (link_map_of links3)
          [joint "j1" "revolute" "A" "B"; joint "j2" "fixed" "C" "C"].

(** A joint from A to B followed by a joint from B back to B. *)
Definition loop_below : Robot :=
  mkRobot (link_map_of links3)
          [joint "j1" "revolute" "A" "B"; joint "j2" "fixed" "B" "B"].

(** The second joint names a link Z that the map lacks. *)
Definition missing_child : Robot :=
  mkRobot (link_map_of links3)
          [joint "j1" "revolute" "A" "B"; joint "j2" "fixed" "B" "Z"].

(** The second joint has a type tag outside the table. *)
Definition ball_joint : Robot :=
  mkRobot (link_map_of links3)
          [joint "j1" "revolute" "A" "B"; joint "j2" "ball" "B" "C"].

(** The root frame made for link A. *)
Definition frame_A : Frame := make_root_frame (link "A" None []).

Definition links4 : list LinkRecord :=
  links3 ++ [link "D" (Some [1; 1; 1; 0; 0; 0]%Z) []].

(** Two trees, A -> B and C -> D. *)
Definition forest : Robot :=
  mkRobot (link_map_of links4)
          [joint "j1" "revolute" "A" "B"; joint "j2" "fixed" "C" "D"].

(** The parent of the only joint is a link Y that the map lacks. *)
Definition missing_root : Robot :=
  mkRobot (link_map_of links3) [joint "j1" "revolute" "Y" "A"].

(** A rank of the link names that falls along the joints of [forest]. *)
Definition forest_rank (x : string) : nat :=
  if String.eqb x "A" then 1 else if String.eqb x "C" then 1 else 0.

End Models.

Module TranslationModels.
Import TranslationModel.

(** A chain A -> B -> C of translated links. *)
Definition slider : Robot :=
  mkRobot
    (list_to_map
       (map (fun l => (lr_name l, l))
            [ mkLinkRecord "A" (Some [1; 0; 0; 0; 0; 0]%Z) [];
              mkLinkRecord "B" (Some [1; 2; 0; 0; 0; 0]%Z) [];
              mkLinkRecord "C" (Some [4; 2; 7; 0; 0; 0]%Z) [] ]))
    [ mkJointRecord "j1" "prismatic" "A" "B" (mkJointAxis [1; 0; 0]%Z);
      mkJointRecord "j2" "prismatic" "B" "C" (mkJointAxis [0; 0; 1]%Z) ].

End TranslationModels.

(** * Properties *)

Section Properties.
Context {TA : TransformAlg}.

(** ** Outcomes *)

Lemma bind_Ok {A B : Type} (m : outcome A) (k : A -> outcome B) (b : B) :
  m ≫= k = Ok b <-> exists a, m = Ok a /\ k a = Ok b.
Proof.
  destruct m as [a|e|]; simpl; split; try (intros [a' [? ?]]); try done; eauto.
  by simplify_eq.
Qed.

(** ** The recursion and its relational reading *)

Lemma for_joints_children_of recurse lmap root_frame js children :
  for_joints recurse lmap root_frame js children
  = cs ← children_of recurse lmap (l_name (f_link root_frame)) js; Ok (children ++ cs).
Proof.
  revert children. induction js as [|j js IH]; intros children; simpl.
  - by rewrite app_nil_r.
  - destruct (String.eqb _ _); [|apply IH].
    destruct (expand_joint recurse lmap j) as [cf|e|]; simpl; try done.
    rewrite IH. destruct (children_of _ _ _ js) as [cs|e|]; simpl; try done.
    by rewrite <- app_assoc.
Qed.

Lemma recurse_S fuel root_frame lmap joints :
  _build_chain_recurse (S fuel) root_frame lmap joints
  = children_of (fun cf => _build_chain_recurse fuel cf lmap joints)
                lmap (l_name (f_link root_frame)) joints.
Proof.
  simpl. rewrite for_joints_children_of. simpl.
  by destruct (children_of _ _ _ _).
Qed.

Lemma expand_joint_Ok recurse lmap j cf :
  expand_joint recurse lmap j = Ok cf <->
  exists link_p link_c joint_type gcs,
    lmap !! jr_parent j = Some link_p /\
    lmap !! jr_child j = Some link_c /\
    JOINT_TYPE_MAP !! jr_type j = Some joint_type /\
    recurse (child_frame_of j link_p link_c joint_type []) = Ok gcs /\
    cf = child_frame_of j link_p link_c joint_type gcs.
Proof.
  unfold expand_joint, lookup_link, lookup_joint_type. split.
  - destruct (lmap !! jr_parent j) as [lp|]; simpl; [|done].
    destruct (lmap !! jr_child j) as [lc|]; simpl; [|done].
    destruct (JOINT_TYPE_MAP !! jr_type j) as [jt|]; simpl; [|done].
    fold (child_frame_of j lp lc jt []).
    destruct (recurse _) as [gcs|e|] eqn:Hrec; simpl; [|done..].
    intros [= <-]. by exists lp, lc, jt, gcs.
  - intros (lp & lc & jt & gcs & -> & -> & -> & Hrec & ->). simpl.
    fold (child_frame_of j lp lc jt []). by rewrite Hrec.
Qed.

Lemma children_of_builds recurse lmap joints x js cs :
  (forall cf gcs, recurse cf = Ok gcs -> builds lmap joints (l_name (f_link cf)) joints gcs) ->
  children_of recurse lmap x js = Ok cs ->
  builds lmap joints x js cs.
Proof.
  intros Hrec. revert cs. induction js as [|j js IH]; intros cs; simpl.
  - intros [= <-]. constructor.
  - destruct (String.eqb_spec (jr_parent j) x) as [Heq|Hne].
    + intros (cf & Hcf & Hrest)%bind_Ok.
      apply bind_Ok in Hrest as (cs' & Hcs' & [= <-]).
      apply expand_joint_Ok in Hcf as (lp & lc & jt & gcs & Hp & Hc & Ht & Hr & ->).
      apply builds_match; auto. by apply Hrec in Hr.
    + intros Hcs. apply builds_skip; auto.
Qed.

(** A returned list of children is the one the relation describes. *)
Lemma recurse_builds fuel root_frame lmap joints cs :
  _build_chain_recurse fuel root_frame lmap joints = Ok cs ->
  builds lmap joints (l_name (f_link root_frame)) joints cs.
Proof.
  revert root_frame cs. induction fuel as [|fuel IH]; intros rf cs; [done|].
  rewrite recurse_S. apply children_of_builds. intros cf gcs. apply IH.
Qed.

(** Conversely the recursion returns it, at every sufficient depth. *)
Lemma builds_children_of lmap joints x js cs :
  builds lmap joints x js cs ->
  exists fuel, forall fuel', fuel <= fuel' ->
    children_of (fun cf => _build_chain_recurse fuel' cf lmap joints) lmap x js = Ok cs.
Proof.
  induction 1 as [x|x j js cs Hne _ [f IH]
                 |x j js lp lc jt gcs cs Heq Hp Hc Ht _ [f1 IH1] _ [f2 IH2]].
  - by exists 0.
  - exists f. intros f' Hf'. simpl.
    destruct (String.eqb_spec (jr_parent j) x); [done|]. by apply IH.
  - exists (S f1 `max` f2). intros f' Hf'. cbn [children_of].
    destruct (String.eqb_spec (jr_parent j) x); [|done].
    assert (expand_joint (fun cf => _build_chain_recurse f' cf lmap joints) lmap j
            = Ok (child_frame_of j lp lc jt gcs)) as ->.
    { apply expand_joint_Ok. exists lp, lc, jt, gcs. repeat split; auto.
      destruct f' as [|f']; [lia|]. rewrite recurse_S. apply IH1. lia. }
    rewrite IH2; [done|lia].
Qed.

Lemma builds_recurse lmap joints root_frame cs :
  builds lmap joints (l_name (f_link root_frame)) joints cs ->
  exists fuel, forall fuel', fuel <= fuel' ->
    _build_chain_recurse fuel' root_frame lmap joints = Ok cs.
Proof.
  intros [f Hf]%builds_children_of. exists (S f). intros [|f'] Hf'; [lia|].
  rewrite recurse_S. apply Hf. lia.
Qed.

Lemma expand_joint_Raise recurse lmap j e :
  expand_joint recurse lmap j = Raise e <->
  (lmap !! jr_parent j = None /\ e = KeyError_link ParentSite (jr_parent j)) \/
  (exists link_p, lmap !! jr_parent j = Some link_p /\
     ((lmap !! jr_child j = None /\ e = KeyError_link ChildSite (jr_child j)) \/
      (exists link_c, lmap !! jr_child j = Some link_c /\
         ((JOINT_TYPE_MAP !! jr_type j = None /\ e = KeyError_joint_type (jr_type j)) \/
          (exists joint_type, JOINT_TYPE_MAP !! jr_type j = Some joint_type /\
             recurse (child_frame_of j link_p link_c joint_type []) = Raise e))))).
Proof.
  unfold expand_joint, lookup_link, lookup_joint_type.
  destruct (lmap !! jr_parent j) as [lp|]; simpl.
  2: { split; [intros [= <-]; by left|]. intros [[_ ->]|(? & ? & _)]; done. }
  destruct (lmap !! jr_child j) as [lc|]; simpl.
  2: { split; [intros [= <-]; right; exists lp; split; [done|by left]|].
       intros [[? _]|(? & _ & [[_ ->]|(? & ? & _)])]; done. }
  destruct (JOINT_TYPE_MAP !! jr_type j) as [jt|]; simpl.
  2: { split.
       - intros [= <-]. right. exists lp. split; [done|]. right. exists lc.
         split; [done|]. by left.
       - intros [[? _]|(? & _ & [[? _]|(? & _ & [[_ ->]|(? & ? & _)])])]; done. }
  fold (child_frame_of j lp lc jt []). split.
  - destruct (recurse _) as [gcs|e'|] eqn:Hrec; simpl; [done| |done].
    intros [= <-]. right. exists lp. split; [done|]. right. exists lc.
    split; [done|]. right. by exists jt.
  - intros [[? _]|(? & [= <-] & [[? _]|(? & [= <-] & [[? _]|(? & [= <-] & Hrec)])])];
      try done.
    by rewrite Hrec.
Qed.

Lemma expand_joint_NoFuel recurse lmap j :
  expand_joint recurse lmap j = NoFuel <->
  exists link_p link_c joint_type,
    lmap !! jr_parent j = Some link_p /\
    lmap !! jr_child j = Some link_c /\
    JOINT_TYPE_MAP !! jr_type j = Some joint_type /\
    recurse (child_frame_of j link_p link_c joint_type []) = NoFuel.
Proof.
  unfold expand_joint, lookup_link, lookup_joint_type. split.
  - destruct (lmap !! jr_parent j) as [lp|]; simpl; [|done].
    destruct (lmap !! jr_child j) as [lc|]; simpl; [|done].
    destruct (JOINT_TYPE_MAP !! jr_type j) as [jt|]; simpl; [|done].
    fold (child_frame_of j lp lc jt []).
    destruct (recurse _) as [gcs|e|] eqn:Hrec; simpl; [done..|].
    intros _. by exists lp, lc, jt.
  - intros (lp & lc & jt & -> & -> & -> & Hrec). simpl.
    fold (child_frame_of j lp lc jt []). by rewrite Hrec.
Qed.

(** A loop that raises does so in the expansion of one of its joints. *)
Lemma children_of_Raise recurse lmap x js e :
  children_of recurse lmap x js = Raise e ->
  exists j, j ∈ js /\ jr_parent j = x /\ expand_joint recurse lmap j = Raise e.
Proof.
  induction js as [|j js IH]; simpl; [done|].
  destruct (String.eqb_spec (jr_parent j) x) as [Heq|Hne].
  - destruct (expand_joint recurse lmap j) as [cf|e'|] eqn:Hcf; simpl; [| |done].
    + destruct (children_of recurse lmap x js) as [cs|e'|]; simpl; [done| |done].
      intros [= <-]. destruct IH as (j' & ? & ? & ?); [done|].
      exists j'. split; [by right|done].
    + intros [= <-]. exists j. split; [by left|done].
  - intros (j' & ? & ? & ?)%IH. exists j'. split; [by right|done].
Qed.

Lemma children_of_NoFuel recurse lmap x js :
  children_of recurse lmap x js = NoFuel ->
  exists j, j ∈ js /\ jr_parent j = x /\ expand_joint recurse lmap j = NoFuel.
Proof.
  induction js as [|j js IH]; simpl; [done|].
  destruct (String.eqb_spec (jr_parent j) x) as [Heq|Hne].
  - destruct (expand_joint recurse lmap j) as [cf|e'|] eqn:Hcf; simpl; [|done|].
    + destruct (children_of recurse lmap x js) as [cs|e'|]; simpl; [done|done|].
      intros _. destruct IH as (j' & ? & ? & ?); [done|].
      exists j'. split; [by right|done].
    + intros _. exists j. split; [by left|done].
  - intros (j' & ? & ? & ?)%IH. exists j'. split; [by right|done].
Qed.

(** ** Root discovery *)

Lemma build_chain_from_sdf_unfold fuel robot :
  build_chain_from_sdf fuel robot
  = root_link ← discover_root robot;
    children ← _build_chain_recurse fuel (make_root_frame root_link)
                                    (link_map robot) (joints_of robot);
    Ok (mkChain (set_children (make_root_frame root_link) children)).
Proof.
  unfold build_chain_from_sdf, discover_root.
  destruct (root_flags _) as [hr|e|]; simpl; [|done..].
  by destruct (find_root _ _ _ _) as [v|e|].
Qed.

Lemma elem_of_range (a b x : nat) : x ∈ range a b <-> a <= x < b.
Proof. unfold range. rewrite elem_of_seq. lia. Qed.

Lemma mark_pair_clear joints i j has_root :
  i < length joints -> j < length joints -> length has_root = length joints ->
  mark_pair joints i j has_root = Ok (clear_flag has_root (target joints i j)).
Proof.
  intros Hi Hj Hlen. unfold mark_pair, target, index.
  destruct (lookup_lt_is_Some_2 joints i Hi) as [ji ->].
  destruct (lookup_lt_is_Some_2 joints j Hj) as [jj ->]. simpl.
  unfold set_item.
  destruct (String.eqb _ _); simpl.
  { case_decide; [done|lia]. }
  destruct (String.eqb _ _); simpl; [|done].
  case_decide; [done|lia].
Qed.

Lemma length_clear_flag has_root t : length (clear_flag has_root t) = length has_root.
Proof. destruct t; simpl; [apply length_insert|done]. Qed.

Lemma length_fold_clear ts has_root :
  length (fold_left clear_flag ts has_root) = length has_root.
Proof.
  revert has_root. induction ts as [|t ts IH]; intros hr; simpl; [done|].
  by rewrite IH, length_clear_flag.
Qed.

(** A loop whose body clears one flag per step is a fold of [clear_flag]. *)
Lemma for_each_clear (n : nat) (xs : list nat) (body : nat -> list bool -> outcome (list bool))
    (tgt : nat -> option nat) has_root :
  (forall x hr, x ∈ xs -> length hr = n -> body x hr = Ok (clear_flag hr (tgt x))) ->
  length has_root = n ->
  for_each xs body has_root = Ok (fold_left clear_flag (map tgt xs) has_root).
Proof.
  revert has_root. induction xs as [|x xs IH]; intros hr Hbody Hlen; simpl; [done|].
  rewrite Hbody; [|left|done]. simpl. apply IH.
  - intros y hr' Hy. apply Hbody. by right.
  - by rewrite length_clear_flag.
Qed.

(** Several such loops in a row. *)
Lemma for_each_clear_nested (n : nat) (xs : list nat)
    (body : nat -> list bool -> outcome (list bool))
    (tgts : nat -> list (option nat)) has_root :
  (forall x hr, x ∈ xs -> length hr = n -> body x hr = Ok (fold_left clear_flag (tgts x) hr)) ->
  length has_root = n ->
  for_each xs body has_root = Ok (fold_left clear_flag (flat_map tgts xs) has_root).
Proof.
  revert has_root. induction xs as [|x xs IH]; intros hr Hbody Hlen; simpl; [done|].
  rewrite Hbody; [|left|done]. simpl. rewrite fold_left_app. apply IH.
  - intros y hr' Hy. apply Hbody. by right.
  - by rewrite length_fold_clear.
Qed.

Lemma fold_clear_lookup ts has_root k :
  fold_left clear_flag ts has_root !! k
  = (fun b => b && negb (bool_decide (Some k ∈ ts))) <$> has_root !! k.
Proof.
  revert has_root. induction ts as [|t ts IH]; intros hr; simpl.
  - destruct (hr !! k) as [b|]; simpl; [|done]. f_equal. by destruct b.
  - rewrite IH. destruct t as [t|]; simpl.
    + destruct (decide (t = k)) as [->|Hne].
      * destruct (hr !! k) as [b|] eqn:Hk.
        -- rewrite list_lookup_insert_eq; [|by eapply lookup_lt_Some]. simpl.
           rewrite (bool_decide_eq_true_2 (Some k ∈ Some k :: ts)); [|by left].
           simpl. by rewrite andb_false_r.
        -- assert (<[k:=false]> hr !! k = None) as ->; [|done].
           apply lookup_ge_None. rewrite length_insert. by apply lookup_ge_None.
      * rewrite list_lookup_insert_ne; [|done].
        assert (bool_decide (Some k ∈ Some t :: ts) = bool_decide (Some k ∈ ts)) as ->;
          [|done].
        apply bool_decide_ext. rewrite elem_of_cons.
        split; [intros [?|?]; [simplify_eq|done] | by right].
    + assert (bool_decide (Some k ∈ None :: ts) = bool_decide (Some k ∈ ts)) as ->;
        [|done].
      apply bool_decide_ext. rewrite elem_of_cons.
        split; [intros [?|?]; [simplify_eq|done] | by right].
Qed.

Lemma root_flags_fold joints :
  root_flags joints
  = Ok (fold_left clear_flag (all_targets joints) (replicate (length joints) true)).
Proof.
  unfold root_flags, all_targets.
  apply (for_each_clear_nested (length joints)); [|apply length_replicate].
  intros i hr [_ Hi]%elem_of_range Hlen.
  apply (for_each_clear (length joints)); [|done].
  intros j hr' [_ Hj]%elem_of_range Hlen'.
  apply mark_pair_clear; [lia|lia|done].
Qed.

Lemma target_Some joints i j k :
  target joints i j = Some k <->
  exists ji jj, joints !! i = Some ji /\ joints !! j = Some jj /\
    ((k = i /\ jr_parent ji = jr_child jj) \/
     (k = j /\ jr_parent ji <> jr_child jj /\ jr_parent jj = jr_child ji)).
Proof.
  unfold target. split.
  - destruct (joints !! i) as [ji|]; [|done]. destruct (joints !! j) as [jj|]; [|done].
    destruct (String.eqb_spec (jr_parent ji) (jr_child jj)).
    { intros [= <-]. exists ji, jj. auto. }
    destruct (String.eqb_spec (jr_parent jj) (jr_child ji)); [|done].
    intros [= <-]. exists ji, jj. split; [done|]. split; [done|]. by right.
  - intros (ji & jj & -> & -> & H).
    destruct (String.eqb_spec (jr_parent ji) (jr_child jj)).
    { destruct H as [[-> _]|[_ [? _]]]; done. }
    destruct (String.eqb_spec (jr_parent jj) (jr_child ji));
      destruct H as [[_ ?]|[-> [_ ?]]]; done.
Qed.

(** [disqualified] in words. *)
Lemma disqualified_true joints k :
  disqualified joints k = true <->
  exists jk, joints !! k = Some jk /\
    ((exists j jj, k < j /\ joints !! j = Some jj /\ jr_parent jk = jr_child jj) \/
     (exists i ji, i < k /\ joints !! i = Some ji /\
                   jr_parent ji <> jr_child jk /\ jr_parent jk = jr_child ji)).
Proof.
  unfold disqualified. destruct (joints !! k) as [jk|] eqn:Hk.
  2: { split; [done|]. by intros (? & ? & _). }
  rewrite orb_true_iff, !existsb_exists. split.
  - intros [(j & Hj & Hpc)|(i & Hi & Hpc)]; exists jk; (split; [done|]).
    + apply list_elem_of_In, elem_of_range in Hj.
      destruct (joints !! j) as [jj|] eqn:Hjj; [|done].
      apply String.eqb_eq in Hpc. left. exists j, jj. split; [lia|done].
    + apply list_elem_of_In, elem_of_range in Hi.
      destruct (joints !! i) as [ji|] eqn:Hji; [|done].
      apply andb_true_iff in Hpc as [Hn Hpc].
      apply negb_true_iff, String.eqb_neq in Hn. apply String.eqb_eq in Hpc.
      right. exists i, ji. split; [lia|done].
  - intros (jk' & [= <-] & [(j & jj & Hlt & Hjj & Hpc)|(i & ji & Hlt & Hji & Hn & Hpc)]).
    + left. exists j. split.
      * apply list_elem_of_In, elem_of_range. apply lookup_lt_Some in Hjj. lia.
      * rewrite Hjj. by apply String.eqb_eq.
    + right. exists i. split.
      * apply list_elem_of_In, elem_of_range. lia.
      * rewrite Hji. apply andb_true_iff. split.
        -- by apply negb_true_iff, String.eqb_neq.
        -- by apply String.eqb_eq.
Qed.

Lemma elem_of_all_targets joints k :
  Some k ∈ all_targets joints <-> disqualified joints k = true.
Proof.
  rewrite disqualified_true. unfold all_targets.
  rewrite list_elem_of_In, in_flat_map. split.
  - intros (i & [_ Hi]%list_elem_of_In%elem_of_range & Hin).
    apply list_elem_of_In, list_elem_of_fmap in Hin as (j & Ht & [Hij Hj]%elem_of_range).
    symmetry in Ht. apply target_Some in Ht as (ji & jj & Hji & Hjj & [[-> Hpc]|[-> [Hn Hpc]]]).
    + exists ji. split; [done|]. left. exists j, jj. split; [lia|done].
    + exists jj. split; [done|]. right. exists i, ji. split; [lia|done].
  - intros (jk & Hk & [(j & jj & Hlt & Hjj & Hpc)|(i & ji & Hlt & Hji & Hn & Hpc)]).
    + exists k. pose proof (lookup_lt_Some _ _ _ Hk). pose proof (lookup_lt_Some _ _ _ Hjj).
      split; [apply list_elem_of_In, elem_of_range; lia|].
      apply list_elem_of_In, list_elem_of_fmap. exists j.
      split; [|apply elem_of_range; lia].
      symmetry. apply target_Some. exists jk, jj. auto.
    + exists i. pose proof (lookup_lt_Some _ _ _ Hk). pose proof (lookup_lt_Some _ _ _ Hji).
      split; [apply list_elem_of_In, elem_of_range; lia|].
      apply list_elem_of_In, list_elem_of_fmap. exists k.
      split; [|apply elem_of_range; lia].
      symmetry. apply target_Some. exists ji, jk.
      split; [done|]. split; [done|]. by right.
Qed.

(** The flags after the scan, joint by joint. *)
Lemma root_flags_spec joints :
  root_flags joints
  = Ok (map (fun k => negb (disqualified joints k)) (range 0 (length joints))).
Proof.
  rewrite root_flags_fold. f_equal. apply list_eq. intros k.
  rewrite fold_clear_lookup. unfold range. rewrite Nat.sub_0_r.
  destruct (decide (k < length joints)) as [Hk|Hk].
  - rewrite lookup_replicate_2 by done.
    rewrite list_lookup_fmap, lookup_seq_lt by done. simpl. f_equal. f_equal.
    destruct (disqualified joints k) eqn:Hd.
    + apply bool_decide_eq_true_2. by apply elem_of_all_targets.
    + apply bool_decide_eq_false_2. rewrite elem_of_all_targets. by rewrite Hd.
  - rewrite (lookup_ge_None_2 (replicate _ _)) by (rewrite length_replicate; lia).
    rewrite list_lookup_fmap, lookup_seq_ge by lia. done.
Qed.

Lemma find_root_find lmap joints (f : nat -> bool) has_root indices :
  (forall i, i ∈ indices -> has_root !! i = Some (f i)) ->
  find_root lmap joints has_root indices
  = match find f indices with
    | Some k => ji ← index joints k;
                root_link ← lookup_link RootSite lmap (jr_parent ji);
                Ok (Some root_link)
    | None => Ok None
    end.
Proof.
  induction indices as [|i indices IH]; intros Hflags; simpl; [done|].
  assert (index has_root i = Ok (f i)) as ->.
  { unfold index. by rewrite (Hflags i) by left. }
  simpl.
  destruct (f i); [done|]. apply IH. intros k Hk. apply Hflags. by right.
Qed.

Lemma find_range_lt (f : nat -> bool) n k : find f (range 0 n) = Some k -> k < n /\ f k = true.
Proof.
  intros [Hin Hf]%find_some. by apply list_elem_of_In, elem_of_range in Hin as [_ ?].
Qed.

Lemma first_eligible_Some joints jk :
  first_eligible joints = Some jk <->
  exists k, find (fun k => negb (disqualified joints k)) (range 0 (length joints)) = Some k
            /\ joints !! k = Some jk.
Proof.
  unfold first_eligible. destruct (find _ _) as [k|]; simpl; [|by split; [|intros (?&?&?)]].
  split; [by exists k|]. by intros (k' & [= <-] & ?).
Qed.

Lemma first_eligible_None joints :
  first_eligible joints = None <->
  forall k, k < length joints -> disqualified joints k = true.
Proof.
  unfold first_eligible. destruct (find _ _) as [k|] eqn:Hfind; simpl.
  - apply find_range_lt in Hfind as [Hk Hf].
    destruct (lookup_lt_is_Some_2 joints k Hk) as [jk Hjk]. rewrite Hjk.
    split; [done|]. intros Hall. rewrite (Hall k Hk) in Hf. done.
  - split; [|done]. intros _ k Hk.
    pose proof (find_none _ _ Hfind k) as Hn. simpl in Hn.
    apply negb_false_iff, Hn, list_elem_of_In, elem_of_range. lia.
Qed.

Lemma discover_root_spec robot :
  discover_root robot
  = match first_eligible (joints_of robot) with
    | Some jk => lookup_link RootSite (link_map robot) (jr_parent jk)
    | None => Raise (UnboundLocalError "root_link")
    end.
Proof.
  unfold discover_root. rewrite root_flags_spec. simpl.
  rewrite (find_root_find _ _ (fun k => negb (disqualified (joints_of robot) k))).
  2: { intros i [_ Hi]%elem_of_range. rewrite list_lookup_fmap.
       unfold range. rewrite lookup_seq_lt by lia. done. }
  unfold first_eligible.
  destruct (find _ _) as [k|] eqn:Hfind; simpl; [|done].
  apply find_range_lt in Hfind as [Hk _].
  destruct (lookup_lt_is_Some_2 _ k Hk) as [jk Hjk]. unfold index. rewrite Hjk. simpl.
  by destruct (lookup_link _ _ _).
Qed.

(** C1, amended: after the scan the flag of joint [k] is false exactly when
    its parent is the child of a later joint, or the child of an earlier
    joint whose own parent is not the child of [k] (the second test of a
    pair is made only when the first fails); and the root link is the
    link-map entry of the parent of the first joint whose flag is still
    true, when there is one. *)
Theorem root_discovery (robot : Robot) :
  root_flags (joints_of robot)
  = Ok (map (fun k => negb (disqualified (joints_of robot) k))
            (range 0 (length (joints_of robot))))
  /\ discover_root robot
     = match first_eligible (joints_of robot) with
       | Some jk => lookup_link RootSite (link_map robot) (jr_parent jk)
       | None => Raise (UnboundLocalError "root_link")
       end.
Proof. split; [apply root_flags_spec|apply discover_root_spec]. Qed.

(** C9: when no joint is left eligible, as for the empty joint list, the
    build fails on reading the unbound [root_link], at any recursion depth,
    before the root frame is made; no Chain is returned. *)
Theorem build_no_root (robot : Robot) (fuel : nat) :
  (forall k, k < length (joints_of robot) -> disqualified (joints_of robot) k = true) ->
  discover_root robot = Raise (UnboundLocalError "root_link")
  /\ build_chain_from_sdf fuel robot = Raise (UnboundLocalError "root_link").
Proof.
  intros Hall%first_eligible_None.
  assert (discover_root robot = Raise (UnboundLocalError "root_link")) as Hd.
  { by rewrite discover_root_spec, Hall. }
  split; [done|]. by rewrite build_chain_from_sdf_unfold, Hd.
Qed.

(** ** The frames of a returned chain *)

Lemma chain_root_pairs fuel robot chain :
  build_chain_from_sdf fuel robot = Ok chain ->
  exists root_link cs,
    discover_root robot = Ok root_link /\
    builds (link_map robot) (joints_of robot) (lr_name root_link) (joints_of robot) cs /\
    chain_root chain = set_children (make_root_frame root_link) cs.
Proof.
  rewrite build_chain_from_sdf_unfold.
  intros (root_link & Hroot & (cs & Hcs & [= <-])%bind_Ok)%bind_Ok.
  exists root_link, cs. split; [done|]. split; [|done].
  by apply recurse_builds in Hcs.
Qed.

(** What holds of every expansion holds of every pair of the tree. *)
Lemma builds_pairs lmap joints (Q : Frame -> Frame -> Prop) :
  (forall f j link_p link_c joint_type gcs,
     j ∈ joints -> jr_parent j = l_name (f_link f) ->
     lmap !! jr_parent j = Some link_p -> lmap !! jr_child j = Some link_c ->
     JOINT_TYPE_MAP !! jr_type j = Some joint_type ->
     Q f (child_frame_of j link_p link_c joint_type gcs)) ->
  forall x js cs, builds lmap joints x js cs -> js ⊆ joints ->
  forall f, l_name (f_link f) = x ->
  Forall (fun pc => Q pc.1 pc.2) (flat_map (fun c => (f, c) :: parent_child_pairs c) cs).
Proof.
  intros HQ. induction 1 as [x|x j js cs Hne _ IH
                            |x j js lp lc jt gcs cs Heq Hp Hc Ht _ IH1 _ IH2];
    intros Hsub f Hf.
  - constructor.
  - apply IH; [|done]. intros j' ?. apply Hsub. by right.
  - simpl. constructor; [|apply Forall_app; split].
    + simpl. apply HQ; try done; [apply Hsub; by left|congruence].
    + apply IH1; done.
    + apply IH2; [|done]. intros j' ?. apply Hsub. by right.
Qed.

Lemma chain_pairs_Forall fuel robot chain (Q : Frame -> Frame -> Prop) :
  (forall f j link_p link_c joint_type gcs,
     j ∈ joints_of robot -> jr_parent j = l_name (f_link f) ->
     link_map robot !! jr_parent j = Some link_p ->
     link_map robot !! jr_child j = Some link_c ->
     JOINT_TYPE_MAP !! jr_type j = Some joint_type ->
     Q f (child_frame_of j link_p link_c joint_type gcs)) ->
  build_chain_from_sdf fuel robot = Ok chain ->
  Forall (fun pc => Q pc.1 pc.2) (parent_child_pairs (chain_root chain)).
Proof.
  intros HQ (root_link & cs & _ & Hb & ->)%chain_root_pairs.
  unfold set_children. simpl.
  eapply (builds_pairs _ _ Q HQ); [exact Hb|done|done].
Qed.

(** The scan for link [x] makes one frame for each matching joint, in order. *)
Lemma builds_frames_of_joints robot x js cs :
  builds (link_map robot) (joints_of robot) x js cs ->
  Forall2 (frame_of_joint robot)
          (List.filter (fun j => String.eqb (jr_parent j) x) js) cs.
Proof.
  induction 1 as [x|x j js cs Hne _ IH|x j js lp lc jt gcs cs Heq Hp Hc Ht _ _ _ IH2];
    simpl.
  - constructor.
  - by destruct (String.eqb_spec (jr_parent j) x).
  - destruct (String.eqb_spec (jr_parent j) x); [|done].
    constructor; [|done]. split; [done|]. split; [done|]. by exists lp, lc.
Qed.

(** What holds of every frame made by an expansion holds of every frame
    below the root. *)
Lemma builds_below lmap joints (Q : Frame -> Prop) :
  (forall j link_p link_c joint_type gcs,
     builds lmap joints (lr_name link_c) joints gcs ->
     Q (child_frame_of j link_p link_c joint_type gcs)) ->
  forall x js cs, builds lmap joints x js cs ->
  Forall Q (flat_map (fun c => c :: subframes c) cs).
Proof.
  intros HQ. induction 1 as [x|x j js cs Hne _ IH
                            |x j js lp lc jt gcs cs Heq Hp Hc Ht Hgcs IH1 _ IH2].
  - constructor.
  - done.
  - simpl. constructor; [by apply HQ|]. apply Forall_app. by split.
Qed.

(** C2: in a returned chain, at every frame (the root and every frame below
    it) each joint whose parent equals the frame's link name has its child
    frame, one per joint and in joint order, and the joint offset of that
    child frame is convert(parent_link.pose).inverse() *
    convert(child_link.pose) for the link-map entries of the joint's parent
    and child; conversely every child frame is the frame of such a joint;
    convert of a null pose is the default (identity) transform. *)
Theorem joint_offsets (fuel : nat) (robot : Robot) (chain : Chain) :
  build_chain_from_sdf fuel robot = Ok chain ->
  Forall (joints_expanded_at robot) (chain_root chain :: subframes (chain_root chain))
  /\ Forall (offset_from_joint robot) (parent_child_pairs (chain_root chain))
  /\ _convert_transform None = Transform_new None None.
Proof.
  intros Hb. split; [|split; [|done]].
  - destruct (chain_root_pairs _ _ _ Hb) as (root_link & cs & _ & Hcs & ->).
    unfold set_children. simpl. constructor.
    + by apply builds_frames_of_joints.
    + apply (builds_below (link_map robot) (joints_of robot) (joints_expanded_at robot))
        with (x := lr_name root_link) (js := joints_of robot); [|done].
      intros j lp lc jt gcs Hgcs. by apply builds_frames_of_joints.
  - apply (chain_pairs_Forall fuel robot chain (fun p c => offset_from_joint robot (p, c)));
      [|done].
    intros f j lp lc jt gcs Hj Hpar Hp Hc Ht. exists j, lp, lc. by repeat split.
Qed.

(** ** Link lookups inside the recursion *)

Lemma recurse_link_error fuel root_frame lmap joints s k :
  lmap_keyed lmap ->
  is_Some (lmap !! l_name (f_link root_frame)) ->
  _build_chain_recurse fuel root_frame lmap joints = Raise (KeyError_link s k) ->
  s = ChildSite /\ lmap !! k = None /\ exists j, j ∈ joints /\ jr_child j = k.
Proof.
  intros Hkeyed. revert root_frame. induction fuel as [|fuel IH]; intros rf Hrf; [done|].
  rewrite recurse_S. intros (j & Hj & Hpar & Hexp)%children_of_Raise.
  apply expand_joint_Raise in Hexp
    as [[Hp _]|(lp & Hp & [[Hc [= -> ->]]|(lc & Hc & [[_ ?]|(jt & _ & Hrec)])])].
  - rewrite Hpar in Hp. rewrite Hp in Hrf. by destruct Hrf.
  - split; [done|]. split; [done|]. by exists j.
  - done.
  - apply IH in Hrec; [done|]. simpl. rewrite (Hkeyed _ _ Hc). by rewrite Hc.
Qed.

(** C10: with the link map keyed by link name, the build never fails on the
    lookup of a joint's parent link; a link lookup that fails inside the
    recursion is the lookup of the child of some joint, absent from the
    map. *)
Theorem parent_lookup_never_fails (fuel : nat) (robot : Robot) (s : site) (k : string) :
  lmap_keyed (link_map robot) ->
  build_chain_from_sdf fuel robot = Raise (KeyError_link s k) ->
  s <> ParentSite /\
  (s = ChildSite ->
   link_map robot !! k = None /\ exists j, j ∈ joints_of robot /\ jr_child j = k).
Proof.
  intros Hkeyed. rewrite build_chain_from_sdf_unfold, discover_root_spec.
  destruct (first_eligible _) as [jk|]; [|done].
  unfold lookup_link at 1.
  destruct (link_map robot !! jr_parent jk) as [root_link|] eqn:Hroot; simpl.
  2: { intros [= <- <-]. done. }
  destruct (_build_chain_recurse _ _ _ _) as [cs|e|] eqn:Hrec; simpl; [done| |done].
  intros [= ->]. apply recurse_link_error in Hrec as (-> & ? & ?); [done|done|].
  simpl. rewrite (Hkeyed _ _ Hroot). by rewrite Hroot.
Qed.

(** ** Termination *)

Lemma recurse_NoFuel_path fuel root_frame lmap joints :
  lmap_keyed lmap ->
  _build_chain_recurse fuel root_frame lmap joints = NoFuel ->
  exists p, length p = fuel /\ is_path joints (l_name (f_link root_frame)) p.
Proof.
  intros Hkeyed. revert root_frame. induction fuel as [|fuel IH]; intros rf.
  - intros _. by exists [].
  - rewrite recurse_S. intros (j & Hj & Hpar & Hexp)%children_of_NoFuel.
    apply expand_joint_NoFuel in Hexp as (lp & lc & jt & Hp & Hc & Ht & Hrec).
    apply IH in Hrec as (p & Hlen & Hpath). simpl in Hpath.
    rewrite (Hkeyed _ _ Hc) in Hpath.
    exists (jr_child j :: p). split; [by rewrite <- Hlen|].
    split; [by exists j|done].
Qed.

Lemma is_path_tc joints x p z : is_path joints x p -> z ∈ p -> tc (edge joints) x z.
Proof.
  revert x. induction p as [|y p IH]; intros x; simpl; [by intros _ ?%elem_of_nil|].
  intros [Hxy Hp] [->|Hz]%elem_of_cons.
  - by apply tc_once.
  - eapply tc_l; [exact Hxy|]. by apply IH.
Qed.

Lemma is_path_NoDup joints x p : acyclic joints -> is_path joints x p -> NoDup p.
Proof.
  intros Hacyc. revert x. induction p as [|y p IH]; intros x; simpl; [constructor|].
  intros [_ Hp]. constructor; [|by eapply IH].
  intros Hy. apply (Hacyc y). by eapply is_path_tc.
Qed.

Lemma is_path_children joints x p z : is_path joints x p -> z ∈ p -> z ∈ map jr_child joints.
Proof.
  revert x. induction p as [|y p IH]; intros x; simpl; [by intros _ ?%elem_of_nil|].
  intros [(j & Hj & _ & <-) Hp] [->|Hz]%elem_of_cons.
  - apply list_elem_of_fmap. by exists j.
  - by eapply IH.
Qed.

(** Without cycles a path visits each child link at most once. *)
Lemma is_path_length joints x p :
  acyclic joints -> is_path joints x p -> length p <= length joints.
Proof.
  intros Hacyc Hp. rewrite <- (length_map jr_child joints).
  apply submseteq_length, NoDup_submseteq; [by eapply is_path_NoDup|].
  intros z. by eapply is_path_children.
Qed.

Lemma recurse_terminates fuel root_frame lmap joints :
  lmap_keyed lmap -> acyclic joints -> length joints < fuel ->
  _build_chain_recurse fuel root_frame lmap joints <> NoFuel.
Proof.
  intros Hkeyed Hacyc Hlt (p & Hlen & Hp)%recurse_NoFuel_path; [|done].
  apply is_path_length in Hp; [lia|done].
Qed.

Lemma recurse_no_Raise fuel root_frame lmap joints e :
  lookups_ok lmap joints ->
  _build_chain_recurse fuel root_frame lmap joints <> Raise e.
Proof.
  intros Hok. revert root_frame. induction fuel as [|fuel IH]; intros rf; [done|].
  rewrite recurse_S. intros (j & Hj & _ & Hexp)%children_of_Raise.
  destruct (Hok j Hj) as ([lp' Hp'] & [lc' Hc'] & [jt' Ht']).
  apply expand_joint_Raise in Hexp
    as [[Hp _]|(lp & Hp & [[Hc _]|(lc & Hc & [[Ht _]|(jt & _ & Hrec)])])]; [congruence..|].
  by apply IH in Hrec.
Qed.

Lemma has_cycle_from_step joints x :
  has_cycle_from joints x -> exists y, edge joints x y /\ has_cycle_from joints y.
Proof.
  intros (c & Hxc & Hcc). inversion Hxc as [|? y ? Hxy Hyc]; subst.
  - inversion Hcc as [? ? Hcc1|? y ? Hxy Hyc]; subst.
    + exists c. split; [done|]. by exists c.
    + exists y. split; [done|]. exists c. split; [by apply tc_rtc|done].
  - exists y. split; [done|]. by exists c.
Qed.

Lemma children_of_diverge recurse lmap x js j :
  j ∈ js -> jr_parent j = x ->
  expand_joint recurse lmap j = NoFuel ->
  (forall j' e, j' ∈ js -> expand_joint recurse lmap j' <> Raise e) ->
  children_of recurse lmap x js = NoFuel.
Proof.
  intros Hj Hpar Hexp. induction js as [|j' js IH]; intros Hnr; simpl.
  { by apply elem_of_nil in Hj. }
  destruct (String.eqb_spec (jr_parent j') x) as [Heq|Hne].
  - destruct (expand_joint recurse lmap j') as [cf|e|] eqn:Hcf; simpl; [| |done].
    + apply elem_of_cons in Hj as [->|Hj]; [congruence|].
      rewrite IH; [done|done|]. intros j'' e ?. apply Hnr. by right.
    + exfalso. eapply (Hnr j' e); [by left|done].
  - apply elem_of_cons in Hj as [->|Hj]; [done|].
    apply IH; [done|]. intros j'' e ?. apply Hnr. by right.
Qed.

Lemma recurse_diverges fuel root_frame lmap joints :
  lmap_keyed lmap -> lookups_ok lmap joints ->
  has_cycle_from joints (l_name (f_link root_frame)) ->
  _build_chain_recurse fuel root_frame lmap joints = NoFuel.
Proof.
  intros Hkeyed Hok. revert root_frame. induction fuel as [|fuel IH]; intros rf Hcyc; [done|].
  rewrite recurse_S.
  apply has_cycle_from_step in Hcyc as (y & (j & Hj & Hpar & <-) & Hcyc).
  apply (children_of_diverge _ _ _ _ j); [done|done| |].
  - destruct (Hok j Hj) as ([lp Hp] & [lc Hc] & [jt Ht]).
    apply expand_joint_NoFuel. exists lp, lc, jt. repeat split; try done.
    apply IH. simpl. by rewrite (Hkeyed _ _ Hc).
  - intros j' e Hj' Hexp. destruct (Hok j' Hj') as ([lp' Hp'] & [lc' Hc'] & [jt' Ht']).
    apply expand_joint_Raise in Hexp
      as [[Hp _]|(lp & Hp & [[Hc _]|(lc & Hc & [[Ht _]|(jt & _ & Hrec)])])]; [congruence..|].
    by apply recurse_no_Raise in Hrec.
Qed.

(** A path from [x] visits no link twice, or a cycle can be reached from [x]. *)
Lemma is_path_NoDup_or_cycle joints x p :
  is_path joints x p -> NoDup p \/ has_cycle_from joints x.
Proof.
  revert x. induction p as [|y p IH]; intros x; simpl; [intros _; left; constructor|].
  intros [Hxy Hp]. destruct (IH y Hp) as [Hnd|(c & Hyc & Hcc)].
  - destruct (decide (y ∈ p)) as [Hin|Hnotin].
    + right. exists y. split; [by apply rtc_once|]. by eapply is_path_tc.
    + left. by constructor.
  - right. exists c. split; [|done]. by eapply rtc_l.
Qed.

(** A call that has not returned at a depth above the number of joints has
    a cycle of joints within reach of its frame. *)
Lemma recurse_NoFuel_cycle fuel root_frame lmap joints :
  lmap_keyed lmap -> length joints < fuel ->
  _build_chain_recurse fuel root_frame lmap joints = NoFuel ->
  has_cycle_from joints (l_name (f_link root_frame)).
Proof.
  intros Hkeyed Hlt (p & Hlen & Hp)%recurse_NoFuel_path; [|done].
  destruct (is_path_NoDup_or_cycle _ _ _ Hp) as [Hnd|Hcyc]; [exfalso|done].
  assert (length p <= length joints); [|lia].
  rewrite <- (length_map jr_child joints).
  apply submseteq_length, NoDup_submseteq; [done|].
  intros z. by eapply is_path_children.
Qed.

Lemma acyclic_no_cycle_from joints x : acyclic joints -> ~ has_cycle_from joints x.
Proof. intros Hacyc (c & _ & Hcc). by apply (Hacyc c). Qed.

(** C4, amended: with the link map keyed by link name, a call from whose
    frame no cycle of joints can be reached returns (a value or an
    exception) within depth [length joints + 1], whatever cycles the joint
    set has elsewhere; so does every call on a joint set without cycles; a
    call from whose frame a cycle of joints can be reached, all joints naming
    known links and types, never returns. *)
Theorem recursion_termination (lmap : gmap string LinkRecord)
    (joints : list JointRecord) (root_frame : Frame) :
  lmap_keyed lmap ->
  (~ has_cycle_from joints (l_name (f_link root_frame)) ->
   forall fuel, length joints < fuel ->
     _build_chain_recurse fuel root_frame lmap joints <> NoFuel) /\
  (acyclic joints ->
   forall fuel, length joints < fuel ->
     _build_chain_recurse fuel root_frame lmap joints <> NoFuel) /\
  (lookups_ok lmap joints ->
   has_cycle_from joints (l_name (f_link root_frame)) ->
   forall fuel, _build_chain_recurse fuel root_frame lmap joints = NoFuel).
Proof.
  intros Hkeyed. split; [|split].
  - intros Hnc fuel Hlt Hrec. by apply Hnc, (recurse_NoFuel_cycle fuel _ lmap).
  - intros Hacyc fuel Hlt. by apply recurse_terminates.
  - intros Hok Hcyc fuel. by apply recurse_diverges.
Qed.

(** ** Propagation of exceptions *)

Lemma children_of_app recurse lmap x js1 js2 :
  children_of recurse lmap x (js1 ++ js2)
  = cs1 ← children_of recurse lmap x js1;
    cs2 ← children_of recurse lmap x js2;
    Ok (cs1 ++ cs2).
Proof.
  induction js1 as [|j js1 IH]; simpl.
  - by destruct (children_of recurse lmap x js2).
  - destruct (String.eqb _ _); [|done].
    destruct (expand_joint recurse lmap j) as [cf|e|]; simpl; [|done..].
    rewrite IH. destruct (children_of recurse lmap x js1) as [cs1|e|]; simpl; [|done..].
    by destruct (children_of recurse lmap x js2).
Qed.

(** An exception raised by the expansion of [j], after a prefix that was
    scanned without one, is the outcome of the whole scan. *)
Lemma children_of_Raise_at lmap joints x pre j post cs e f0 :
  builds lmap joints x pre cs -> jr_parent j = x ->
  (forall fuel, f0 <= fuel ->
     expand_joint (fun cf => _build_chain_recurse fuel cf lmap joints) lmap j = Raise e) ->
  exists f, forall fuel, f <= fuel ->
    children_of (fun cf => _build_chain_recurse fuel cf lmap joints) lmap x (pre ++ j :: post)
    = Raise e.
Proof.
  intros [f1 Hpre]%builds_children_of Hpar Hexp.
  exists (f0 `max` f1). intros fuel Hfuel.
  rewrite children_of_app, Hpre by lia. cbn [children_of].
  destruct (String.eqb_spec (jr_parent j) x); [|done].
  rewrite Hexp by lia. done.
Qed.

(** An exception raised in a reached call is the outcome of the first call. *)
Lemma reached_Raise lmap joints root x e :
  reached lmap joints root x ->
  (exists f0, forall fuel, f0 <= fuel ->
     children_of (fun cf => _build_chain_recurse fuel cf lmap joints) lmap x joints = Raise e) ->
  exists f, forall fuel, f <= fuel ->
    children_of (fun cf => _build_chain_recurse fuel cf lmap joints) lmap root joints = Raise e.
Proof.
  induction 1 as [|x pre j post cs lp lc jt _ IH Hjoints Hpar Hpre Hp Hc Ht]; [done|].
  intros [f0 Hraise]. apply IH.
  destruct (children_of_Raise_at lmap joints x pre j post cs e (S f0) Hpre Hpar) as [f Hf].
  { intros [|fuel] Hfuel; [lia|].
    apply expand_joint_Raise. right. exists lp. split; [done|]. right. exists lc.
    split; [done|]. right. exists jt. split; [done|].
    rewrite recurse_S. apply Hraise. lia. }
  exists f. intros fuel Hfuel. rewrite <- (Hf fuel Hfuel). by rewrite <- Hjoints.
Qed.

(** The exception of an expanded joint whose own expansion raises. *)
Lemma expanded_Raise lmap joints root j e :
  expanded lmap joints root j ->
  (forall recurse, expand_joint recurse lmap j = Raise e) ->
  exists f, forall fuel root_frame, f <= fuel -> l_name (f_link root_frame) = root ->
    _build_chain_recurse fuel root_frame lmap joints = Raise e.
Proof.
  intros (x & pre & post & cs & Hreached & Hjoints & Hpar & Hpre) Hexp.
  destruct (reached_Raise lmap joints root x e Hreached) as [f Hf].
  { destruct (children_of_Raise_at lmap joints x pre j post cs e 0 Hpre Hpar) as [f Hf].
    { intros fuel _. apply Hexp. }
    exists f. intros fuel Hfuel. rewrite <- (Hf fuel Hfuel). by rewrite <- Hjoints. }
  exists (S f). intros [|fuel] rf Hfuel Hrf; [lia|].
  rewrite recurse_S, Hrf. apply Hf. lia.
Qed.

(** A build that raises at some depth returns no chain at any depth. *)
Lemma build_Raise_not_Ok robot f e :
  (forall fuel, f <= fuel -> build_chain_from_sdf fuel robot = Raise e) ->
  forall fuel chain, build_chain_from_sdf fuel robot <> Ok chain.
Proof.
  intros Hraise fuel chain Hok.
  pose proof Hok as (root_link & cs & Hroot & Hb & _)%chain_root_pairs.
  pose proof (builds_recurse _ _ (make_root_frame root_link) cs Hb) as [f' Hf'].
  specialize (Hraise (f `max` f') ltac:(lia)).
  rewrite build_chain_from_sdf_unfold, Hroot in Hraise. simpl in Hraise.
  rewrite Hf' in Hraise by lia. done.
Qed.

Lemma build_Raise_expanded robot root_link j e :
  discover_root robot = Ok root_link ->
  expanded (link_map robot) (joints_of robot) (lr_name root_link) j ->
  (forall recurse, expand_joint recurse (link_map robot) j = Raise e) ->
  exists f, forall fuel, f <= fuel -> build_chain_from_sdf fuel robot = Raise e.
Proof.
  intros Hroot Hexp Hraise.
  destruct (expanded_Raise _ _ _ _ _ Hexp Hraise) as [f Hf].
  exists f. intros fuel Hfuel. rewrite build_chain_from_sdf_unfold, Hroot. simpl.
  by rewrite Hf.
Qed.

Lemma JOINT_TYPE_MAP_lookup (t t' : string) :
  JOINT_TYPE_MAP !! t = Some t' <-> t' = t /\ t ∈ ["revolute"; "prismatic"; "fixed"].
Proof.
  unfold JOINT_TYPE_MAP. simpl. rewrite !elem_of_cons, elem_of_nil.
  destruct (decide (t = "revolute")) as [->|H1].
  { rewrite lookup_insert_eq. split; [intros [= <-]; auto|by intros [-> _]]. }
  rewrite lookup_insert_ne by done.
  destruct (decide (t = "prismatic")) as [->|H2].
  { rewrite lookup_insert_eq. split; [intros [= <-]; auto|by intros [-> _]]. }
  rewrite lookup_insert_ne by done.
  destruct (decide (t = "fixed")) as [->|H3].
  { rewrite lookup_insert_eq. split; [intros [= <-]; auto|by intros [-> _]]. }
  rewrite lookup_insert_ne by done. rewrite lookup_empty.
  split; [done|]. by intros [_ [?|[?|[?|[]]]]].
Qed.

Lemma discover_root_keyed robot root_link :
  lmap_keyed (link_map robot) ->
  discover_root robot = Ok root_link ->
  link_map robot !! lr_name root_link = Some root_link.
Proof.
  intros Hkeyed. rewrite discover_root_spec.
  destruct (first_eligible _) as [jk|]; [|done]. unfold lookup_link.
  destruct (link_map robot !! jr_parent jk) as [rl|] eqn:Hrl; [|done].
  intros [= <-]. by rewrite (Hkeyed _ _ Hrl).
Qed.

Lemma reached_keyed lmap joints root x :
  lmap_keyed lmap -> is_Some (lmap !! root) ->
  reached lmap joints root x -> is_Some (lmap !! x).
Proof.
  intros Hkeyed Hroot. induction 1 as [|x pre j post cs lp lc jt _ _ _ _ _ _ Hc _]; [done|].
  rewrite (Hkeyed _ _ Hc). by rewrite Hc.
Qed.

(** C8: when the scan arrives at a joint whose child link is absent from the
    link map, the build raises a link [KeyError] at every sufficient depth
    and returns a chain at none; with the map keyed by link name the error
    is the lookup of that child. *)
Theorem missing_child_link (robot : Robot) (root_link : LinkRecord) (j : JointRecord) :
  discover_root robot = Ok root_link ->
  expanded (link_map robot) (joints_of robot) (lr_name root_link) j ->
  link_map robot !! jr_child j = None ->
  exists e f,
    (forall fuel, f <= fuel -> build_chain_from_sdf fuel robot = Raise e) /\
    (forall fuel chain, build_chain_from_sdf fuel robot <> Ok chain) /\
    (exists s k, e = KeyError_link s k /\ link_map robot !! k = None) /\
    (lmap_keyed (link_map robot) -> e = KeyError_link ChildSite (jr_child j)).
Proof.
  intros Hroot Hexp Hc.
  set (e := match link_map robot !! jr_parent j with
            | Some _ => KeyError_link ChildSite (jr_child j)
            | None => KeyError_link ParentSite (jr_parent j)
            end).
  assert (forall recurse, expand_joint recurse (link_map robot) j = Raise e) as Hraise.
  { intros recurse. apply expand_joint_Raise. unfold e.
    destruct (link_map robot !! jr_parent j) as [lp|]; [|by left].
    right. exists lp. split; [done|]. by left. }
  destruct (build_Raise_expanded robot root_link j e Hroot Hexp Hraise) as [f Hf].
  exists e, f. split; [done|]. split; [by eapply build_Raise_not_Ok|]. split.
  - unfold e. destruct (link_map robot !! jr_parent j) eqn:Hp; eauto.
  - intros Hkeyed. unfold e.
    destruct Hexp as (x & _ & _ & _ & Hreached & _ & Hpar & _).
    eapply reached_keyed in Hreached as [lp Hp]; [|done|].
    + by rewrite Hpar, Hp.
    + by rewrite (discover_root_keyed robot root_link).
Qed.

(** C7: in a returned chain the joint type of every child frame is the entry
    of [JOINT_TYPE_MAP] for the type tag of its joint; when the scan arrives
    at a joint whose tag is not in the table, the build raises a [KeyError]
    at every sufficient depth and returns a chain at none, the error being
    that of the type lookup when both links of the joint are in the map; the
    table maps revolute, prismatic and fixed to themselves and has no other
    key. *)
Theorem joint_type_lookup (robot : Robot) :
  (forall fuel chain,
     build_chain_from_sdf fuel robot = Ok chain ->
     Forall (type_from_joint robot) (parent_child_pairs (chain_root chain))) /\
  (forall root_link j,
     discover_root robot = Ok root_link ->
     expanded (link_map robot) (joints_of robot) (lr_name root_link) j ->
     JOINT_TYPE_MAP !! jr_type j = None ->
     exists e f,
       (forall fuel, f <= fuel -> build_chain_from_sdf fuel robot = Raise e) /\
       (forall fuel chain, build_chain_from_sdf fuel robot <> Ok chain) /\
       is_lookup_error e = true /\
       (is_Some (link_map robot !! jr_parent j) ->
        is_Some (link_map robot !! jr_child j) ->
        e = KeyError_joint_type (jr_type j))) /\
  (forall t t', JOINT_TYPE_MAP !! t = Some t' <->
                t' = t /\ t ∈ ["revolute"; "prismatic"; "fixed"]).
Proof.
  split; [|split; [|apply JOINT_TYPE_MAP_lookup]].
  - intros fuel chain Hb.
    apply (chain_pairs_Forall fuel robot chain (fun p c => type_from_joint robot (p, c)));
      [|done].
    intros f j lp lc jt gcs Hj Hpar Hp Hc Ht. exists j. rewrite Ht. by repeat split.
  - intros root_link j Hroot Hexp Ht.
    set (e := match link_map robot !! jr_parent j, link_map robot !! jr_child j with
              | Some _, Some _ => KeyError_joint_type (jr_type j)
              | Some _, None => KeyError_link ChildSite (jr_child j)
              | None, _ => KeyError_link ParentSite (jr_parent j)
              end).
    assert (forall recurse, expand_joint recurse (link_map robot) j = Raise e) as Hraise.
    { intros recurse. apply expand_joint_Raise. unfold e.
      destruct (link_map robot !! jr_parent j) as [lp|]; [|by left].
      right. exists lp. split; [done|].
      destruct (link_map robot !! jr_child j) as [lc|]; [|by left].
      right. exists lc. split; [done|]. by left. }
    destruct (build_Raise_expanded robot root_link j e Hroot Hexp Hraise) as [f Hf].
    exists e, f. split; [done|]. split; [by eapply build_Raise_not_Ok|]. split.
    + unfold e. by repeat case_match.
    + intros [lp Hp] [lc Hc]. unfold e. by rewrite Hp, Hc.
Qed.

(** ** Expanded joints and the joint graph *)

Lemma reached_rtc lmap joints root x :
  lmap_keyed lmap -> reached lmap joints root x -> rtc (edge joints) root x.
Proof.
  intros Hkeyed. induction 1 as [|x pre j post cs lp lc jt _ IH Hjoints Hpar _ _ Hc _]; [done|].
  eapply rtc_r; [exact IH|]. exists j. rewrite (Hkeyed _ _ Hc).
  split; [|done]. rewrite Hjoints. apply elem_of_app. right. by left.
Qed.

(** An expanded joint is a joint whose parent can be reached from the root. *)
Lemma expanded_reachable lmap joints root j :
  lmap_keyed lmap -> expanded lmap joints root j ->
  j ∈ joints /\ rtc (edge joints) root (jr_parent j).
Proof.
  intros Hkeyed (x & pre & post & cs & Hreached & Hjoints & Hpar & _). split.
  - rewrite Hjoints. apply elem_of_app. right. by left.
  - rewrite Hpar. by eapply reached_rtc.
Qed.

Lemma builds_joint_ok lmap joints x js cs j :
  builds lmap joints x js cs -> j ∈ js -> jr_parent j = x ->
  exists link_c joint_type gcs,
    lmap !! jr_child j = Some link_c /\
    JOINT_TYPE_MAP !! jr_type j = Some joint_type /\
    builds lmap joints (lr_name link_c) joints gcs.
Proof.
  induction 1 as [x|x j0 js cs Hne _ IH
                 |x j0 js lp lc jt gcs cs Heq Hp Hc Ht Hgcs _ _ IH2]; intros Hj Hpar.
  - by apply elem_of_nil in Hj.
  - apply elem_of_cons in Hj as [->|Hj]; [done|]. by apply IH.
  - apply elem_of_cons in Hj as [->|Hj]; [|by apply IH2]. by exists lc, jt, gcs.
Qed.

Lemma builds_reachable lmap joints root cs x :
  lmap_keyed lmap ->
  builds lmap joints root joints cs -> rtc (edge joints) root x ->
  exists cs', builds lmap joints x joints cs'.
Proof.
  intros Hkeyed Hb Hreach. revert x Hreach.
  apply (rtc_ind_r (fun x => exists cs', builds lmap joints x joints cs')); [by exists cs|].
  intros y x _ (j & Hj & Hpar & Hchild) [cs' Hcs'].
  destruct (builds_joint_ok _ _ _ _ _ j Hcs' Hj Hpar) as (lc & jt & gcs & Hc & _ & Hgcs).
  exists gcs. by rewrite (Hkeyed _ _ Hc), Hchild in Hgcs.
Qed.

(** In a build that returns a chain, every joint whose parent can be reached
    from the root link names a child link of the map and a type of the
    table: a reachable joint with a missing child link or an unknown type tag
    leaves no chain. *)
Lemma reachable_joint_ok fuel robot chain root_link j :
  lmap_keyed (link_map robot) ->
  discover_root robot = Ok root_link ->
  build_chain_from_sdf fuel robot = Ok chain ->
  j ∈ joints_of robot ->
  rtc (edge (joints_of robot)) (lr_name root_link) (jr_parent j) ->
  is_Some (link_map robot !! jr_child j) /\ is_Some (JOINT_TYPE_MAP !! jr_type j).
Proof.
  intros Hkeyed Hroot (root_link' & cs & Hroot' & Hb & _)%chain_root_pairs Hj Hreach.
  assert (root_link' = root_link) as -> by congruence.
  destruct (builds_reachable _ _ _ _ _ Hkeyed Hb Hreach) as [cs' Hcs'].
  destruct (builds_joint_ok _ _ _ _ _ j Hcs' Hj eq_refl) as (lc & jt & _ & Hc & Ht & _).
  by rewrite Hc, Ht.
Qed.

(** The recursion raises nothing but lookup errors. *)
Lemma recurse_Raise_lookup fuel root_frame lmap joints e :
  _build_chain_recurse fuel root_frame lmap joints = Raise e -> is_lookup_error e = true.
Proof.
  revert root_frame. induction fuel as [|fuel IH]; intros rf; [done|].
  rewrite recurse_S. intros (j & _ & _ & Hexp)%children_of_Raise.
  apply expand_joint_Raise in Hexp
    as [[_ ->]|(lp & _ & [[_ ->]|(lc & _ & [[_ ->]|(jt & _ & Hrec)])])]; try done.
  by apply IH in Hrec.
Qed.

(** Without cycles, a joint whose parent can be reached from the root link
    and whose child link or type tag is unknown makes the build raise a
    lookup error, at every depth above the number of joints. *)
Lemma reachable_joint_raises fuel robot root_link j :
  lmap_keyed (link_map robot) -> acyclic (joints_of robot) ->
  discover_root robot = Ok root_link ->
  j ∈ joints_of robot ->
  rtc (edge (joints_of robot)) (lr_name root_link) (jr_parent j) ->
  link_map robot !! jr_child j = None \/ JOINT_TYPE_MAP !! jr_type j = None ->
  length (joints_of robot) < fuel ->
  exists e, build_chain_from_sdf fuel robot = Raise e /\ is_lookup_error e = true.
Proof.
  intros Hkeyed Hacyc Hroot Hj Hreach Hbad Hfuel.
  destruct (build_chain_from_sdf fuel robot) as [chain|e|] eqn:Hb.
  - destruct (reachable_joint_ok _ _ _ _ j Hkeyed Hroot Hb Hj Hreach) as [[? Hc] [? Ht]].
    destruct Hbad; congruence.
  - exists e. split; [done|].
    rewrite build_chain_from_sdf_unfold, Hroot in Hb. simpl in Hb.
    destruct (_build_chain_recurse _ _ _ _) as [cs|e'|] eqn:Hrec; simpl in Hb; [done| |done].
    injection Hb as ->. by eapply recurse_Raise_lookup.
  - rewrite build_chain_from_sdf_unfold, Hroot in Hb. simpl in Hb.
    destruct (_build_chain_recurse _ _ _ _) as [cs|e'|] eqn:Hrec; simpl in Hb; [done..|].
    by apply recurse_terminates in Hrec.
Qed.

(** ** Joint sets that form a tree *)

Lemma child_inj (joints : list JointRecord) j1 j2 :
  NoDup (map jr_child joints) ->
  j1 ∈ joints -> j2 ∈ joints -> jr_child j1 = jr_child j2 -> j1 = j2.
Proof.
  induction joints as [|j js IH]; simpl.
  { by intros _ ?%elem_of_nil. }
  intros [Hnotin Hnd]%NoDup_cons [->|H1]%elem_of_cons [->|H2]%elem_of_cons Heq.
  - done.
  - exfalso. apply Hnotin. rewrite Heq. apply list_elem_of_fmap. by exists j2.
  - exfalso. apply Hnotin. rewrite <- Heq. apply list_elem_of_fmap. by exists j1.
  - by apply IH.
Qed.

(** A link has at most one parent link. *)
Lemma edge_parent_unique joints y1 y2 z :
  NoDup (map jr_child joints) -> edge joints y1 z -> edge joints y2 z -> y1 = y2.
Proof.
  intros Hnd (j1 & Hj1 & <- & Hc1) (j2 & Hj2 & <- & Hc2).
  f_equal. eapply child_inj; [done..|congruence].
Qed.

(** The ancestors of a link are linearly ordered. *)
Lemma ancestors_chain joints a b z :
  NoDup (map jr_child joints) ->
  rtc (edge joints) a z -> rtc (edge joints) b z ->
  rtc (edge joints) a b \/ rtc (edge joints) b a.
Proof.
  intros Hnd Ha. revert z Ha b.
  apply (rtc_ind_r (fun z => forall b, rtc (edge joints) b z ->
                             rtc (edge joints) a b \/ rtc (edge joints) b a)).
  - intros b Hb. by right.
  - intros y z Hay Hyz IH b Hb. apply rtc_inv_r in Hb as [->|(y' & Hby' & Hy'z)].
    + left. by eapply rtc_r.
    + rewrite <- (edge_parent_unique joints y y' z) in Hby' by done. by apply IH.
Qed.

Lemma sibling_not_descendant joints j1 j2 :
  NoDup (map jr_child joints) -> acyclic joints ->
  j1 ∈ joints -> j2 ∈ joints -> jr_parent j1 = jr_parent j2 -> jr_child j1 <> jr_child j2 ->
  ~ rtc (edge joints) (jr_child j1) (jr_child j2).
Proof.
  intros Hnd Hacyc Hj1 Hj2 Hpar Hne [Heq|(y & Hy & Hedge)]%rtc_inv_r; [done|].
  assert (y = jr_parent j2) as ->.
  { eapply edge_parent_unique; [done..|]. by exists j2. }
  apply (Hacyc (jr_parent j1)). eapply tc_rtc_r; [|by rewrite Hpar].
  apply tc_once. by exists j1.
Qed.

(** The subtrees of two children of a link share no link. *)
Lemma siblings_disjoint joints j1 j2 z :
  NoDup (map jr_child joints) -> acyclic joints ->
  j1 ∈ joints -> j2 ∈ joints -> jr_parent j1 = jr_parent j2 -> jr_child j1 <> jr_child j2 ->
  rtc (edge joints) (jr_child j1) z -> rtc (edge joints) (jr_child j2) z -> False.
Proof.
  intros Hnd Hacyc Hj1 Hj2 Hpar Hne H1 H2.
  destruct (ancestors_chain joints _ _ z Hnd H1 H2) as [H|H].
  - by eapply (sibling_not_descendant joints j1 j2).
  - by eapply (sibling_not_descendant joints j2 j1).
Qed.

(** In a tree every link has one depth below the root. *)
Lemma single_rooted_depth joints root n m x :
  single_rooted joints root ->
  nsteps (edge joints) n root x -> nsteps (edge joints) m root x -> n = m.
Proof.
  intros (_ & Hnd & Hroot & _). revert m x.
  induction n as [|n IH]; intros m x Hn Hm.
  - inversion Hn; subst. destruct m as [|m]; [done|].
    apply nsteps_inv_r in Hm as (y & _ & (j & Hj & _ & Hc)). by apply Hroot in Hc.
  - apply nsteps_inv_r in Hn as (y & Hn & Hyx).
    destruct m as [|m].
    { inversion Hm; subst. destruct Hyx as (j & Hj & _ & Hc). by apply Hroot in Hc. }
    apply nsteps_inv_r in Hm as (y' & Hm & Hy'x).
    rewrite <- (edge_parent_unique joints y y' x) in Hm by done.
    f_equal. by eapply IH.
Qed.

Lemma tc_edge_parent joints x y :
  tc (edge joints) x y -> exists j, j ∈ joints /\ jr_parent j = x.
Proof. intros [? ? (j & ? & ? & _)|? ? ? (j & ? & ? & _) _]; by exists j. Qed.

Lemma single_rooted_acyclic joints root : single_rooted joints root -> acyclic joints.
Proof.
  intros Hsr x Hxx. pose proof Hsr as (_ & _ & _ & Hreach).
  destruct (tc_edge_parent _ _ _ Hxx) as (j & Hj & <-).
  apply Hreach, rtc_nsteps in Hj as [n Hn].
  apply tc_nsteps in Hxx as (k & Hk & Hxx).
  pose proof (nsteps_trans _ _ _ _ _ Hn Hxx) as Hnk.
  pose proof (single_rooted_depth joints root _ _ _ Hsr Hn Hnk). lia.
Qed.

(** In a tree the scan disqualifies exactly the joints not at the root. *)
Lemma single_rooted_disqualified joints root k jk :
  single_rooted joints root -> joints !! k = Some jk ->
  disqualified joints k = false <-> jr_parent jk = root.
Proof.
  intros Hsr Hk. pose proof (single_rooted_acyclic _ _ Hsr) as Hacyc.
  destruct Hsr as (_ & Hnd & Hroot & Hreach).
  assert (jk ∈ joints) as Hjk by (by eapply list_elem_of_lookup_2).
  split.
  - intros Hd. destruct (decide (jr_parent jk = root)) as [|Hne]; [done|exfalso].
    apply not_true_iff_false in Hd. apply Hd, disqualified_true.
    exists jk. split; [done|].
    destruct (rtc_inv_r _ _ (Hreach jk Hjk)) as [?|(y & _ & (jm & Hjm & _ & Hc))]; [done|].
    apply list_elem_of_lookup_1 in Hjm as [m Hm].
    destruct (lt_eq_lt_dec k m) as [[Hlt| ->]|Hgt].
    + left. by exists m, jm.
    + exfalso. assert (jm = jk) as -> by congruence.
      apply (Hacyc (jr_parent jk)). apply tc_once. by exists jk.
    + right. exists m, jm. repeat split; try done.
      intros Heq. apply (Hacyc (jr_parent jk)).
      eapply tc_l; [by exists jk|]. apply tc_once. exists jm.
      split; [by eapply list_elem_of_lookup_2|done].
  - intros Hpar. apply not_true_iff_false. intros (jk' & Hk' & Hd)%disqualified_true.
    assert (jk' = jk) as -> by congruence.
    destruct Hd as [(j & jj & _ & Hjj & Heq)|(i & ji & _ & Hji & _ & Heq)].
    + apply (Hroot jj); [by eapply list_elem_of_lookup_2|congruence].
    + apply (Hroot ji); [by eapply list_elem_of_lookup_2|congruence].
Qed.

Lemma single_rooted_has_root_joint joints root :
  single_rooted joints root -> exists j, j ∈ joints /\ jr_parent j = root.
Proof.
  intros (Hne & _ & _ & Hreach). destruct joints as [|j0 js]; [done|].
  destruct (rtc_inv _ _ (Hreach j0 ltac:(left))) as [?|(y & (j & ? & ? & _) & _)].
  - exists j0. split; [left|done].
  - by exists j.
Qed.

(** Root discovery on a tree finds a joint at the root. *)
Lemma single_rooted_first_eligible joints root :
  single_rooted joints root ->
  exists jk, first_eligible joints = Some jk /\ jk ∈ joints /\ jr_parent jk = root.
Proof.
  intros Hsr. destruct (first_eligible joints) as [jk|] eqn:Hfirst.
  - exists jk. split; [done|].
    apply first_eligible_Some in Hfirst as (k & [_ Hf]%find_range_lt & Hk).
    split; [by eapply list_elem_of_lookup_2|].
    apply (single_rooted_disqualified joints root k jk Hsr Hk).
    by apply negb_true_iff.
  - exfalso. destruct (single_rooted_has_root_joint _ _ Hsr) as (j & Hj & Hpar).
    apply list_elem_of_lookup_1 in Hj as [k Hk].
    pose proof (proj1 (first_eligible_None joints) Hfirst k (lookup_lt_Some _ _ _ Hk)) as Hd.
    apply (single_rooted_disqualified joints root k j Hsr Hk) in Hpar. congruence.
Qed.

(** ** Counting the frames of a tree *)

Lemma frame_links_cons j lp lc jt gcs cs :
  frame_links (child_frame_of j lp lc jt gcs :: cs)
  = lr_name lc :: frame_links gcs ++ frame_links cs.
Proof. unfold frame_links. simpl. by rewrite map_app. Qed.

(** Every frame below link [x] is for a link below a child of [x]. *)
Lemma builds_links_below lmap joints x js cs z :
  lmap_keyed lmap ->
  builds lmap joints x js cs -> js ⊆ joints -> z ∈ frame_links cs ->
  exists j, j ∈ js /\ jr_parent j = x /\ rtc (edge joints) (jr_child j) z.
Proof.
  intros Hkeyed Hb. revert z.
  induction Hb as [x|x j js cs Hne _ IH
                  |x j js lp lc jt gcs cs Heq Hp Hc Ht _ IH1 _ IH2]; intros z Hsub Hz.
  - by apply elem_of_nil in Hz.
  - destruct (IH z) as (j' & ? & ? & ?); [by intros ? ?; apply Hsub; right|done|].
    exists j'. split; [by right|done].
  - rewrite frame_links_cons, (Hkeyed _ _ Hc) in Hz.
    apply elem_of_cons in Hz as [->|[Hz|Hz]%elem_of_app].
    + exists j. split; [by left|done].
    + destruct (IH1 z) as (j' & Hj' & Hpar' & Hreach); [done|done|].
      exists j. split; [by left|]. split; [done|].
      eapply rtc_l; [|done]. exists j'. by rewrite <- (Hkeyed _ _ Hc).
    + destruct (IH2 z) as (j' & ? & ? & ?); [by intros ? ?; apply Hsub; right|done|].
      exists j'. split; [by right|done].
Qed.

(** Every link below a child of [x] has its frame below the frame of [x]. *)
Lemma builds_links_complete lmap joints x js cs j z :
  lmap_keyed lmap ->
  builds lmap joints x js cs ->
  j ∈ js -> jr_parent j = x -> rtc (edge joints) (jr_child j) z ->
  z ∈ frame_links cs.
Proof.
  intros Hkeyed Hb. revert j z.
  induction Hb as [x|x j0 js cs Hne _ IH
                  |x j0 js lp lc jt gcs cs Heq Hp Hc Ht _ IH1 _ IH2]; intros j z Hj Hpar Hz.
  - by apply elem_of_nil in Hj.
  - apply elem_of_cons in Hj as [->|Hj]; [done|]. by eapply IH.
  - rewrite frame_links_cons, (Hkeyed _ _ Hc).
    apply elem_of_cons in Hj as [->|Hj].
    + apply rtc_inv in Hz as [<-|(y & (j' & Hj' & Hpar' & <-) & Hz)]; [by left|].
      right. apply elem_of_app. left. eapply (IH1 j'); [done| |done].
      by rewrite (Hkeyed _ _ Hc).
    + right. apply elem_of_app. right. by eapply IH2.
Qed.

(** In a tree no link gets two frames. *)
Lemma builds_links_NoDup lmap joints x js cs :
  lmap_keyed lmap -> NoDup (map jr_child joints) -> acyclic joints ->
  builds lmap joints x js cs -> js ⊆ joints -> NoDup (map jr_child js) ->
  NoDup (frame_links cs).
Proof.
  intros Hkeyed Hnd Hacyc Hb.
  induction Hb as [x|x j js cs Hne _ IH
                  |x j js lp lc jt gcs cs Heq Hp Hc Ht Hgcs IH1 Hcs IH2]; intros Hsub Hndjs.
  - constructor.
  - apply IH; [by intros ? ?; apply Hsub; right|]. by apply NoDup_cons in Hndjs as [_ ?].
  - assert (j ∈ joints) as Hj by (apply Hsub; by left).
    assert (js ⊆ joints) as Hsub' by (by intros ? ?; apply Hsub; right).
    simpl in Hndjs. apply NoDup_cons in Hndjs as [Hnotin Hndjs].
    assert (forall z, z ∈ frame_links gcs -> rtc (edge joints) (jr_child j) z) as Hbelow1.
    { intros z Hz.
      destruct (builds_links_below lmap joints _ joints gcs z Hkeyed Hgcs)
        as (j' & Hj' & Hpar' & Hreach); [done..|].
      eapply rtc_l; [|done]. exists j'. by rewrite <- (Hkeyed _ _ Hc). }
    assert (forall z, z ∈ frame_links cs -> rtc (edge joints) (jr_child j) z -> False)
      as Hdisj.
    { intros z Hz Hjz.
      destruct (builds_links_below lmap joints _ js cs z Hkeyed Hcs)
        as (j' & Hj' & Hpar' & Hreach); [done..|].
      eapply (siblings_disjoint joints j j' z); try done; [by apply Hsub'|congruence|].
      intros Heq'. apply Hnotin. rewrite Heq'. apply list_elem_of_fmap. by exists j'. }
    rewrite frame_links_cons, (Hkeyed _ _ Hc).
    apply NoDup_cons. split; [|apply NoDup_app; split; [|split]].
    + intros [Hin|Hin]%elem_of_app.
      * destruct (builds_links_below lmap joints _ joints gcs _ Hkeyed Hgcs ltac:(done) Hin)
          as (j' & Hj' & Hpar' & Hreach).
        apply (Hacyc (jr_child j)). eapply tc_rtc_r; [|done].
        apply tc_once. exists j'. by rewrite <- (Hkeyed _ _ Hc).
      * by eapply Hdisj.
    + by apply IH1.
    + intros z Hz1 Hz2. eapply Hdisj; [done|]. by apply Hbelow1.
    + by apply IH2.
Qed.

Lemma single_rooted_count lmap joints root cs :
  lmap_keyed lmap -> single_rooted joints root ->
  builds lmap joints root joints cs ->
  length (frame_links cs) = length joints.
Proof.
  intros Hkeyed Hsr Hb. pose proof (single_rooted_acyclic _ _ Hsr) as Hacyc.
  destruct Hsr as (_ & Hnd & Hroot & Hreach).
  rewrite <- (length_map jr_child joints). apply Nat.le_antisymm.
  - apply submseteq_length, NoDup_submseteq.
    + by eapply builds_links_NoDup.
    + intros z Hin.
      destruct (builds_links_below lmap joints _ joints cs z Hkeyed Hb ltac:(done) Hin)
        as (j & Hj & _ & Hz).
      apply rtc_inv_r in Hz as [<-|(y & _ & (j' & Hj' & _ & <-))];
        apply list_elem_of_fmap; eauto.
  - apply submseteq_length, NoDup_submseteq; [done|].
    intros z (j & -> & Hj)%list_elem_of_fmap.
    destruct (rtc_inv _ _ (Hreach j Hj)) as [Heq|(y & (j0 & Hj0 & Hpar0 & <-) & Hz)].
    + by eapply (builds_links_complete lmap joints root joints cs j).
    + eapply (builds_links_complete lmap joints root joints cs j0); [done..|].
      eapply rtc_r; [done|]. by exists j.
Qed.

(** C3: for a joint set that forms a tree rooted at link [root], all links
    and joint types known and the link map keyed by link name, the build
    returns at every depth above the number of joints a chain whose one
    root frame is named after the discovered root link, [root] followed by
    "_frame", and under which the traversal meets exactly
    [length joints] frames. *)
Theorem build_single_rooted (robot : Robot) (root : string) :
  lmap_keyed (link_map robot) ->
  lookups_ok (link_map robot) (joints_of robot) ->
  single_rooted (joints_of robot) root ->
  exists root_link,
    link_map robot !! root = Some root_link /\
    discover_root robot = Ok root_link /\
    forall fuel, length (joints_of robot) < fuel ->
      exists chain,
        build_chain_from_sdf fuel robot = Ok chain /\
        f_name (chain_root chain) = root +:+ "_frame" /\
        l_name (f_link (chain_root chain)) = root /\
        length (subframes (chain_root chain)) = length (joints_of robot).
Proof.
  intros Hkeyed Hok Hsr.
  destruct (single_rooted_first_eligible _ _ Hsr) as (jk & Hfirst & Hjk & Hpar).
  destruct (Hok jk Hjk) as ([root_link Hroot] & _). rewrite Hpar in Hroot.
  assert (discover_root robot = Ok root_link) as Hd.
  { rewrite discover_root_spec, Hfirst, Hpar. unfold lookup_link. by rewrite Hroot. }
  pose proof (Hkeyed _ _ Hroot) as Hname.
  exists root_link. split; [done|]. split; [done|]. intros fuel Hfuel.
  destruct (_build_chain_recurse fuel (make_root_frame root_link)
              (link_map robot) (joints_of robot)) as [cs|e|] eqn:Hrec.
  - exists (mkChain (set_children (make_root_frame root_link) cs)).
    split; [by rewrite build_chain_from_sdf_unfold, Hd; simpl; rewrite Hrec|].
    simpl. rewrite Hname. split; [done|]. split; [done|].
    apply recurse_builds in Hrec. simpl in Hrec. rewrite Hname in Hrec.
    rewrite <- (single_rooted_count _ _ _ cs Hkeyed Hsr Hrec).
    unfold frame_links. by rewrite length_map.
  - by apply recurse_no_Raise in Hrec.
  - apply recurse_terminates in Hrec; [done|done| |done].
    by eapply single_rooted_acyclic.
Qed.

(** ** The frames and the joint graph *)

Lemma frame_links_subframes n j l cs :
  map (fun f => l_name (f_link f)) (subframes (mkFrame n j l cs)) = frame_links cs.
Proof. done. Qed.

(** X7: With the link map keyed by link name, the links that get a frame below
    the root of a returned chain are the links that can be reached from the
    root link through one or more joints: joints elsewhere add no frame, and
    no reachable link is left out. *)
Theorem frames_are_descendants (fuel : nat) (robot : Robot) (chain : Chain) (z : string) :
  lmap_keyed (link_map robot) ->
  build_chain_from_sdf fuel robot = Ok chain ->
  z ∈ map (fun f => l_name (f_link f)) (subframes (chain_root chain))
  <-> tc (edge (joints_of robot)) (l_name (f_link (chain_root chain))) z.
Proof.
  intros Hkeyed (root_link & cs & _ & Hb & ->)%chain_root_pairs.
  unfold set_children. simpl. fold (frame_links cs). split.
  - intros Hz.
    destruct (builds_links_below _ _ _ _ _ z Hkeyed Hb ltac:(done) Hz)
      as (j & Hj & Hpar & Hreach).
    eapply tc_rtc_r; [|done]. apply tc_once. by exists j.
  - intros Hz.
    assert (exists j, j ∈ joints_of robot /\ jr_parent j = lr_name root_link
                      /\ rtc (edge (joints_of robot)) (jr_child j) z)
      as (j & Hj & Hpar & Hreach).
    { inversion Hz as [? ? (j & ? & ? & ?)|? y ? (j & ? & ? & ?) Hyz]; subst.
      - by exists j.
      - exists j. repeat split; try done. by apply tc_rtc. }
    by eapply (builds_links_complete _ _ _ _ _ j).
Qed.

Lemma builds_no_cycle lmap joints x js cs j :
  lmap_keyed lmap ->
  builds lmap joints x js cs -> j ∈ js -> jr_parent j = x ->
  ~ has_cycle_from joints (jr_child j).
Proof.
  intros Hkeyed Hb. revert j.
  induction Hb as [x|x j0 js cs Hne _ IH
                  |x j0 js lp lc jt gcs cs Heq Hp Hc Ht _ IH1 _ IH2]; intros j Hj Hpar.
  - by apply elem_of_nil in Hj.
  - apply elem_of_cons in Hj as [->|Hj]; [done|]. by apply IH.
  - apply elem_of_cons in Hj as [->|Hj]; [|by apply IH2].
    intros (y & (j' & Hj' & Hpar' & <-) & Hcyc)%has_cycle_from_step.
    apply (IH1 j'); [done| |done]. by rewrite (Hkeyed _ _ Hc).
Qed.

Lemma builds_root_no_cycle lmap joints x cs :
  lmap_keyed lmap -> builds lmap joints x joints cs -> ~ has_cycle_from joints x.
Proof.
  intros Hkeyed Hb (y & (j & Hj & Hpar & <-) & Hcyc)%has_cycle_from_step.
  by eapply (builds_no_cycle _ _ _ _ _ j Hkeyed Hb).
Qed.

(** X8: With the link map keyed by link name, a build that returns a chain has
    met no cycle: no cycle of joints can be reached from the root link. *)
Theorem returned_chain_no_cycle (fuel : nat) (robot : Robot) (chain : Chain) :
  lmap_keyed (link_map robot) ->
  build_chain_from_sdf fuel robot = Ok chain ->
  ~ has_cycle_from (joints_of robot) (l_name (f_link (chain_root chain))).
Proof.
  intros Hkeyed (root_link & cs & _ & Hb & ->)%chain_root_pairs.
  unfold set_children. simpl. by eapply builds_root_no_cycle.
Qed.

Lemma sibling_not_descendant_local joints j1 j2 :
  NoDup (map jr_child joints) -> ~ tc (edge joints) (jr_parent j1) (jr_parent j1) ->
  j1 ∈ joints -> j2 ∈ joints -> jr_parent j1 = jr_parent j2 -> jr_child j1 <> jr_child j2 ->
  ~ rtc (edge joints) (jr_child j1) (jr_child j2).
Proof.
  intros Hnd Hnc Hj1 Hj2 Hpar Hne [Heq|(y & Hy & Hedge)]%rtc_inv_r; [done|].
  assert (y = jr_parent j2) as ->.
  { eapply edge_parent_unique; [done..|]. by exists j2. }
  apply Hnc. eapply tc_rtc_r; [|by rewrite Hpar].
  apply tc_once. by exists j1.
Qed.

Lemma builds_links_NoDup_local lmap joints x js cs :
  lmap_keyed lmap -> NoDup (map jr_child joints) ->
  builds lmap joints x js cs -> ~ has_cycle_from joints x ->
  js ⊆ joints -> NoDup (map jr_child js) ->
  NoDup (frame_links cs).
Proof.
  intros Hkeyed Hnd Hb.
  induction Hb as [x|x j js cs Hne _ IH
                  |x j js lp lc jt gcs cs Heq Hp Hc Ht Hgcs IH1 Hcs IH2];
    intros Hnc Hsub Hndjs.
  - constructor.
  - apply IH; [done|by intros ? ?; apply Hsub; right|].
    by apply NoDup_cons in Hndjs as [_ ?].
  - assert (j ∈ joints) as Hj by (apply Hsub; by left).
    assert (js ⊆ joints) as Hsub' by (by intros ? ?; apply Hsub; right).
    simpl in Hndjs. apply NoDup_cons in Hndjs as [Hnotin Hndjs].
    assert (~ tc (edge joints) x x) as Hxx.
    { intros Hxx. apply Hnc. by exists x. }
    assert (~ has_cycle_from joints (jr_child j)) as Hncj.
    { intros (c & Hreach & Hcc). apply Hnc. exists c. split; [|done].
      eapply rtc_l; [|done]. by exists j. }
    assert (forall z, z ∈ frame_links gcs -> tc (edge joints) (jr_child j) z) as Hbelow1.
    { intros z Hz.
      destruct (builds_links_below lmap joints _ joints gcs z Hkeyed Hgcs)
        as (j' & Hj' & Hpar' & Hreach); [done..|].
      eapply tc_rtc_r; [|done]. apply tc_once. exists j'.
      by rewrite <- (Hkeyed _ _ Hc). }
    assert (forall z, z ∈ frame_links cs -> rtc (edge joints) (jr_child j) z -> False)
      as Hdisj.
    { intros z Hz Hjz.
      destruct (builds_links_below lmap joints _ js cs z Hkeyed Hcs)
        as (j' & Hj' & Hpar' & Hreach); [done..|].
      assert (jr_child j <> jr_child j') as Hne'.
      { intros Heq'. apply Hnotin. rewrite Heq'. apply list_elem_of_fmap. by exists j'. }
      destruct (ancestors_chain joints _ _ z Hnd Hjz Hreach) as [H|H].
      - eapply (sibling_not_descendant_local joints j j'); try done;
          [by rewrite Heq|by apply Hsub'|congruence].
      - eapply (sibling_not_descendant_local joints j' j); try done;
          [by rewrite Hpar'|by apply Hsub'|congruence]. }
    rewrite frame_links_cons, (Hkeyed _ _ Hc).
    apply NoDup_cons. split; [|apply NoDup_app; split; [|split]].
    + intros [Hin|Hin]%elem_of_app.
      * apply Hncj. exists (jr_child j). split; [done|]. by apply Hbelow1.
      * by eapply Hdisj.
    + apply IH1; [|done|done]. by rewrite (Hkeyed _ _ Hc).
    + intros z Hz1 Hz2. eapply Hdisj; [done|]. by apply tc_rtc, Hbelow1.
    + by apply IH2.
Qed.

(** X9: With the link map keyed by link name and no link the child of two
    joints, no link gets two frames in a returned chain, and the chain has at
    most as many frames below its root as there are joints. *)
Theorem frames_are_distinct (fuel : nat) (robot : Robot) (chain : Chain) :
  lmap_keyed (link_map robot) ->
  NoDup (map jr_child (joints_of robot)) ->
  build_chain_from_sdf fuel robot = Ok chain ->
  NoDup (map (fun f => l_name (f_link f)) (subframes (chain_root chain)))
  /\ length (subframes (chain_root chain)) <= length (joints_of robot).
Proof.
  intros Hkeyed Hnd Hb.
  destruct (chain_root_pairs _ _ _ Hb) as (root_link & cs & _ & Hcs & Hroot).
  pose proof (builds_root_no_cycle _ _ _ _ Hkeyed Hcs) as Hnc.
  rewrite Hroot. unfold set_children. simpl.
  fold (frame_links cs).
  assert (NoDup (frame_links cs)) as Hndl.
  { by eapply (builds_links_NoDup_local _ _ _ _ _ Hkeyed Hnd Hcs). }
  split; [done|].
  rewrite <- (length_map (fun f => l_name (f_link f))). fold (frame_links cs).
  rewrite <- (length_map jr_child (joints_of robot)).
  apply submseteq_length, NoDup_submseteq; [done|].
  intros z Hz.
  destruct (builds_links_below _ _ _ _ _ z Hkeyed Hcs ltac:(done) Hz) as (j & Hj & _ & Hreach).
  apply rtc_inv_r in Hreach as [<-|(y & _ & (j' & Hj' & _ & <-))];
    apply list_elem_of_fmap; eauto.
Qed.

(** ** The exceptions of the build *)

Lemma recurse_Raise_origin fuel root_frame lmap joints e :
  _build_chain_recurse fuel root_frame lmap joints = Raise e ->
  exists j, j ∈ joints /\
    ((e = KeyError_link ParentSite (jr_parent j) /\ lmap !! jr_parent j = None) \/
     (e = KeyError_link ChildSite (jr_child j) /\ lmap !! jr_child j = None) \/
     (e = KeyError_joint_type (jr_type j) /\ JOINT_TYPE_MAP !! jr_type j = None)).
Proof.
  revert root_frame. induction fuel as [|fuel IH]; intros rf; [done|].
  rewrite recurse_S. intros (j & Hj & _ & Hexp)%children_of_Raise.
  apply expand_joint_Raise in Hexp
    as [[Hp ->]|(lp & _ & [[Hc ->]|(lc & _ & [[Ht ->]|(jt & _ & Hrec)])])].
  - exists j. auto.
  - exists j. auto.
  - exists j. auto.
  - by apply IH in Hrec.
Qed.

(** X10: Every outcome of the build is a returned chain, an exception of the
    following list, or a recursion that has not returned (which the
    interpreter cuts off with its own RecursionError).  The exceptions are
    the failed read of [root_link] and a [KeyError] for a key that some joint
    names and the dictionary lacks: a link name absent from the link map or
    a type tag absent from [JOINT_TYPE_MAP]; no list index is ever out of
    range.  With the link map keyed by link name, a recursion that has not
    returned at a depth above the number of joints means that the root link
    was found and a cycle of joints can be reached from it. *)
Theorem build_exceptions (fuel : nat) (robot : Robot) :
  (forall e, build_chain_from_sdf fuel robot = Raise e ->
     e = UnboundLocalError "root_link" \/
     exists j, j ∈ joints_of robot /\
       ((exists s, e = KeyError_link s (jr_parent j) /\ s <> ChildSite
                   /\ link_map robot !! jr_parent j = None) \/
        (e = KeyError_link ChildSite (jr_child j)
         /\ link_map robot !! jr_child j = None) \/
        (e = KeyError_joint_type (jr_type j) /\ JOINT_TYPE_MAP !! jr_type j = None))) /\
  (lmap_keyed (link_map robot) -> length (joints_of robot) < fuel ->
   build_chain_from_sdf fuel robot = NoFuel ->
   exists root_link, discover_root robot = Ok root_link /\
                     has_cycle_from (joints_of robot) (lr_name root_link)).
Proof.
  split.
  - intros e. rewrite build_chain_from_sdf_unfold, discover_root_spec.
    destruct (first_eligible _) as [jk|] eqn:Hfirst; simpl; [|intros [= <-]; by left].
    unfold lookup_link at 1.
    destruct (link_map robot !! jr_parent jk) as [root_link|] eqn:Hroot; simpl.
    + destruct (_build_chain_recurse _ _ _ _) as [cs|e'|] eqn:Hrec; simpl; [done| |done].
      intros [= ->]. right.
      apply recurse_Raise_origin in Hrec as (j & Hj & [[-> ?]|[[-> ?]|[-> ?]]]);
        exists j; (split; [done|]); eauto.
    + intros [= <-]. right. exists jk. split.
      * apply first_eligible_Some in Hfirst as (k & _ & Hk).
        by eapply list_elem_of_lookup_2.
      * left. by exists RootSite.
  - intros Hkeyed Hfuel. rewrite build_chain_from_sdf_unfold.
    destruct (discover_root robot) as [root_link|e|] eqn:Hroot; simpl; [|done|].
    + destruct (_build_chain_recurse _ _ _ _) as [cs|e'|] eqn:Hrec; simpl; [done..|].
      intros _. exists root_link. split; [done|].
      by apply (recurse_NoFuel_cycle fuel _ (link_map robot)) in Hrec.
    + rewrite discover_root_spec in Hroot.
      destruct (first_eligible _); [|done]. unfold lookup_link in Hroot.
      by destruct (link_map robot !! _).
Qed.

(** X11: The build fails on the lookup of the root link exactly when the parent
    of the first eligible joint is absent from the link map, whatever the
    recursion depth. *)
Theorem root_lookup_error (fuel : nat) (robot : Robot) (k : string) :
  build_chain_from_sdf fuel robot = Raise (KeyError_link RootSite k)
  <-> exists jk, first_eligible (joints_of robot) = Some jk /\ jr_parent jk = k
                 /\ link_map robot !! k = None.
Proof.
  rewrite build_chain_from_sdf_unfold, discover_root_spec. split.
  - destruct (first_eligible _) as [jk|]; simpl; [|done]. unfold lookup_link at 1.
    destruct (link_map robot !! jr_parent jk) as [root_link|] eqn:Hroot; simpl.
    + destruct (_build_chain_recurse _ _ _ _) as [cs|e'|] eqn:Hrec; simpl; [done| |done].
      intros [= ->].
      by apply recurse_Raise_origin in Hrec as (j & _ & [[? _]|[[? _]|[? _]]]).
    + intros [= <-]. by exists jk.
  - intros (jk & -> & <- & Hk). simpl. unfold lookup_link. by rewrite Hk.
Qed.

(** ** Root discovery without cycles *)

Lemma disqualified_symmetric_true joints k :
  disqualified_symmetric joints k = true <->
  exists jk m jm, joints !! k = Some jk /\ m <> k /\ joints !! m = Some jm
                  /\ jr_parent jk = jr_child jm.
Proof.
  unfold disqualified_symmetric. destruct (joints !! k) as [jk|] eqn:Hk.
  2: { split; [done|]. by intros (? & ? & ? & ? & _). }
  rewrite existsb_exists. split.
  - intros (m & _ & [Hne Hpc]%andb_true_iff).
    apply negb_true_iff, Nat.eqb_neq in Hne.
    destruct (joints !! m) as [jm|] eqn:Hm; [|done].
    apply String.eqb_eq in Hpc. by exists jk, m, jm.
  - intros (jk' & m & jm & [= <-] & Hne & Hm & Hpc). exists m. split.
    + apply list_elem_of_In, elem_of_range. apply lookup_lt_Some in Hm. lia.
    + apply andb_true_iff. split; [by apply negb_true_iff, Nat.eqb_neq|].
      rewrite Hm. by apply String.eqb_eq.
Qed.

Lemma no_mutual_pair_disqualified joints k :
  no_mutual_pair joints -> disqualified joints k = disqualified_symmetric joints k.
Proof.
  intros Hnm. apply eq_true_iff_eq.
  rewrite disqualified_true, disqualified_symmetric_true. split.
  - intros (jk & Hk & [(j & jj & Hlt & Hj & Hpc)|(i & ji & Hlt & Hi & _ & Hpc)]).
    + exists jk, j, jj. repeat split; try done. lia.
    + exists jk, i, ji. repeat split; try done. lia.
  - intros (jk & m & jm & Hk & Hne & Hm & Hpc). exists jk. split; [done|].
    destruct (lt_eq_lt_dec k m) as [[Hlt|Heq]|Hgt]; [|done|].
    + left. by exists m, jm.
    + right. exists m, jm. repeat split; try done.
      intros Hcp. by apply (Hnm k m jk jm).
Qed.

Lemma acyclic_no_mutual_pair joints : acyclic joints -> no_mutual_pair joints.
Proof.
  intros Hacyc i j ji jj _ Hi Hj [H1 H2].
  apply (Hacyc (jr_parent ji)). eapply tc_l.
  - exists ji. split; [by eapply list_elem_of_lookup_2|done].
  - apply tc_once. exists jj. split; [by eapply list_elem_of_lookup_2|]. by split.
Qed.

(** X12: When no two joints are each other's parent and child, the pair scan
    (lines 81-87) marks a joint exactly when its parent is the child of some
    other joint: the [elif] of the scan then loses nothing. *)
Theorem root_flags_symmetric (joints : list JointRecord) :
  no_mutual_pair joints ->
  root_flags joints
  = Ok (map (fun k => negb (disqualified_symmetric joints k)) (range 0 (length joints))).
Proof.
  intros Hnm. rewrite root_flags_spec. f_equal. apply map_ext. intros k.
  by rewrite no_mutual_pair_disqualified.
Qed.

(** When every joint's parent is some joint's child, paths of any length
    lead to the parent of a joint. *)
Lemma backward_paths joints j0 (m : nat) :
  (forall j, j ∈ joints -> exists j', j' ∈ joints /\ jr_child j' = jr_parent j) ->
  j0 ∈ joints ->
  exists j p, j ∈ joints /\ is_path joints (jr_parent j) p /\ length p = m.
Proof.
  intros Hback Hj0. induction m as [|m (j & p & Hj & Hp & Hlen)].
  - by exists j0, [].
  - destruct (Hback j Hj) as (j' & Hj' & Hchild).
    exists j', (jr_parent j :: p). split; [done|]. split; [|by rewrite <- Hlen].
    split; [by exists j'|done].
Qed.

Lemma acyclic_first_eligible (joints : list JointRecord) :
  acyclic joints -> joints <> [] ->
  exists jk, first_eligible joints = Some jk /\ jk ∈ joints /\
             forall j, j ∈ joints -> jr_child j <> jr_parent jk.
Proof.
  intros Hacyc Hne. destruct (first_eligible joints) as [jk|] eqn:Hfirst.
  - exists jk. split; [done|].
    apply first_eligible_Some in Hfirst as (k & [_ Hf]%find_range_lt & Hk).
    split; [by eapply list_elem_of_lookup_2|].
    intros j Hj Hchild. apply negb_true_iff in Hf.
    rewrite (no_mutual_pair_disqualified joints k (acyclic_no_mutual_pair _ Hacyc)) in Hf.
    apply not_true_iff_false in Hf. apply Hf, disqualified_symmetric_true.
    apply list_elem_of_lookup_1 in Hj as [m Hm].
    exists jk, m, j. repeat split; try done.
    intros ->. assert (j = jk) as -> by congruence.
    apply (Hacyc (jr_parent jk)). apply tc_once. exists jk.
    split; [by eapply list_elem_of_lookup_2|done].
  - exfalso. destruct joints as [|j0 js]; [done|].
    destruct (backward_paths (j0 :: js) j0 (S (length (j0 :: js)))) as (j & p & _ & Hp & Hlen).
    + intros j Hj. apply list_elem_of_lookup_1 in Hj as [k Hk].
      pose proof (proj1 (first_eligible_None _) Hfirst k (lookup_lt_Some _ _ _ Hk)) as Hd.
      apply disqualified_true in Hd
        as (jk & Hk' & [(m & jm & _ & Hm & Hpc)|(m & jm & _ & Hm & _ & Hpc)]);
        assert (jk = j) as -> by congruence;
        exists jm; (split; [by eapply list_elem_of_lookup_2|done]).
    + by left.
    + apply is_path_length in Hp; [lia|done].
Qed.

(** X13: On a non-empty joint set without cycles root discovery (lines 80-91)
    always finds an eligible joint and so never leaves [root_link] unbound;
    the parent of that joint is the child of no joint. *)
Theorem acyclic_root_found (robot : Robot) :
  acyclic (joints_of robot) -> joints_of robot <> [] ->
  exists jk, jk ∈ joints_of robot /\
             discover_root robot = lookup_link RootSite (link_map robot) (jr_parent jk) /\
             forall j, j ∈ joints_of robot -> jr_child j <> jr_parent jk.
Proof.
  intros Hacyc Hne.
  destruct (acyclic_first_eligible _ Hacyc Hne) as (jk & Hfirst & Hjk & Hroot).
  exists jk. split; [done|]. split; [|done]. by rewrite discover_root_spec, Hfirst.
Qed.

(** X14: With the link map keyed by link name and every joint naming known links
    and a known type, the build of a non-empty joint set without cycles
    returns a chain at every depth above the number of joints, also when
    the joints form several trees; the root link is the child of no joint. *)
Theorem acyclic_build_returns (robot : Robot) (fuel : nat) :
  lmap_keyed (link_map robot) ->
  lookups_ok (link_map robot) (joints_of robot) ->
  acyclic (joints_of robot) -> joints_of robot <> [] ->
  length (joints_of robot) < fuel ->
  exists chain,
    build_chain_from_sdf fuel robot = Ok chain /\
    forall j, j ∈ joints_of robot -> jr_child j <> l_name (f_link (chain_root chain)).
Proof.
  intros Hkeyed Hok Hacyc Hne Hfuel.
  destruct (acyclic_first_eligible _ Hacyc Hne) as (jk & Hfirst & Hjk & Hroot).
  destruct (Hok jk Hjk) as ([root_link Hrl] & _).
  assert (discover_root robot = Ok root_link) as Hd.
  { rewrite discover_root_spec, Hfirst. unfold lookup_link. by rewrite Hrl. }
  destruct (_build_chain_recurse fuel (make_root_frame root_link)
              (link_map robot) (joints_of robot)) as [cs|e|] eqn:Hrec.
  - exists (mkChain (set_children (make_root_frame root_link) cs)).
    split; [by rewrite build_chain_from_sdf_unfold, Hd; simpl; rewrite Hrec|].
    simpl. by rewrite (Hkeyed _ _ Hrl).
  - by apply recurse_no_Raise in Hrec.
  - by apply recurse_terminates in Hrec.
Qed.

(** ** Poses along the chain *)

Lemma builds_world lmap joints x js cs l :
  (forall a b : Transform, tmul a (tmul (tinverse a) b) = b) ->
  lmap_keyed lmap ->
  builds lmap joints x js cs -> lmap !! x = Some l ->
  Forall (at_link_pose lmap)
         (flat_map (fun c => (c, tmul (_convert_transform (lr_pose l)) (j_offset (f_joint c)))
                             :: world_below (tmul (_convert_transform (lr_pose l))
                                                  (j_offset (f_joint c))) c) cs).
Proof.
  intros Hcancel Hkeyed Hb. revert l.
  induction Hb as [x|x j js cs Hne _ IH
                  |x j js lp lc jt gcs cs Heq Hp Hc Ht _ IH1 _ IH2]; intros l Hl.
  - constructor.
  - by apply IH.
  - rewrite Heq, Hl in Hp. injection Hp as <-.
    assert (lmap !! lr_name lc = Some lc) as Hlc by (by rewrite (Hkeyed _ _ Hc)).
    cbn [flat_map]. constructor; [|apply Forall_app; split].
    + exists lc. split; [done|]. simpl. apply Hcancel.
    + simpl. rewrite Hcancel. by apply IH1.
    + by apply IH2.
Qed.

(** X15: When the transforms cancel, [a * (a.inverse() * b) = b], and the link
    map is keyed by link name, composing the joint offsets from the root
    down gives every frame of a returned chain the converted pose of its own
    link: the offsets re-express the absolute link poses without changing
    them. *)
Theorem world_poses_are_link_poses (fuel : nat) (robot : Robot) (chain : Chain) :
  (forall a b : Transform, tmul a (tmul (tinverse a) b) = b) ->
  lmap_keyed (link_map robot) ->
  build_chain_from_sdf fuel robot = Ok chain ->
  Forall (at_link_pose (link_map robot)) (world_poses (chain_root chain)).
Proof.
  intros Hcancel Hkeyed (root_link & cs & Hroot & Hb & ->)%chain_root_pairs.
  pose proof (discover_root_keyed _ _ Hkeyed Hroot) as Hrl.
  unfold world_poses, set_children. simpl. constructor.
  - by exists root_link.
  - by apply (builds_world _ _ _ _ _ root_link Hcancel Hkeyed Hb).
Qed.

(** ** The content of the frames *)

(** What holds of every expansion holds of every frame below the root. *)
Lemma builds_subframes lmap joints (Q : Frame -> Prop) :
  (forall j link_p link_c joint_type gcs,
     j ∈ joints ->
     lmap !! jr_parent j = Some link_p -> lmap !! jr_child j = Some link_c ->
     JOINT_TYPE_MAP !! jr_type j = Some joint_type ->
     builds lmap joints (lr_name link_c) joints gcs ->
     Q (child_frame_of j link_p link_c joint_type gcs)) ->
  forall x js cs, builds lmap joints x js cs -> js ⊆ joints ->
  Forall Q (flat_map (fun c => c :: subframes c) cs).
Proof.
  intros HQ. induction 1 as [x|x j js cs Hne _ IH
                            |x j js lp lc jt gcs cs Heq Hp Hc Ht Hgcs IH1 _ IH2];
    intros Hsub.
  - constructor.
  - apply IH. intros j' ?. apply Hsub. by right.
  - simpl. constructor; [|apply Forall_app; split].
    + apply HQ; try done. apply Hsub. by left.
    + by apply IH1.
    + apply IH2. intros j' ?. apply Hsub. by right.
Qed.

Lemma builds_child_names lmap joints x js cs :
  builds lmap joints x js cs ->
  map f_name cs
  = map (fun j => jr_child j +:+ "_frame")
        (List.filter (fun j => String.eqb (jr_parent j) x) js).
Proof.
  induction 1 as [x|x j js cs Hne _ IH|x j js lp lc jt gcs cs Heq Hp Hc Ht _ _ _ IH2];
    simpl.
  - done.
  - by destruct (String.eqb_spec (jr_parent j) x).
  - destruct (String.eqb_spec (jr_parent j) x); [|done]. simpl. by rewrite IH2.
Qed.

(** X3: The root frame of a returned chain (lines 92-96): its joint has no name,
    no type and no axis given and the converted pose of the root link as
    offset, its link has the root link's name, the default transform and the
    converted visuals of the root link. *)
Theorem root_frame_content (fuel : nat) (robot : Robot) (chain : Chain) :
  build_chain_from_sdf fuel robot = Ok chain ->
  exists root_link,
    discover_root robot = Ok root_link /\
    f_name (chain_root chain) = lr_name root_link +:+ "_frame" /\
    f_joint (chain_root chain)
    = mkJoint None (_convert_transform (lr_pose root_link)) None None /\
    f_link (chain_root chain)
    = mkLink (lr_name root_link) (Transform_new None None)
             (_convert_visuals (lr_visuals root_link)).
Proof.
  intros (root_link & cs & Hroot & _ & ->)%chain_root_pairs. by exists root_link.
Qed.

(** X4: Every child frame of a returned chain (lines 51-56) carries the name and
    the axis of its joint, and as link the name of the link-map entry of the
    joint's child, the default transform and that entry's converted
    visuals. *)
Theorem child_frame_content (fuel : nat) (robot : Robot) (chain : Chain) :
  build_chain_from_sdf fuel robot = Ok chain ->
  Forall (link_from_joint robot) (parent_child_pairs (chain_root chain)).
Proof.
  intros Hb.
  apply (chain_pairs_Forall fuel robot chain (fun p c => link_from_joint robot (p, c)));
    [|done].
  intros f j lp lc jt gcs Hj Hpar Hp Hc Ht. exists j, lc. by repeat split.
Qed.

(** X5: In a returned chain the children of every frame are the frames of the
    joints whose parent is the frame's link, in the order of the joint list
    (lines 43-59): joints with another parent add nothing. *)
Theorem children_follow_joint_order (fuel : nat) (robot : Robot) (chain : Chain) :
  build_chain_from_sdf fuel robot = Ok chain ->
  Forall (fun f => map f_name (f_children f)
                   = child_frame_names (joints_of robot) (l_name (f_link f)))
         (all_frames (chain_root chain)).
Proof.
  intros (root_link & cs & _ & Hb & ->)%chain_root_pairs.
  unfold all_frames, set_children. simpl. constructor.
  - simpl. by eapply builds_child_names.
  - apply (builds_subframes (link_map robot) (joints_of robot)
             (fun f => map f_name (f_children f)
                       = child_frame_names (joints_of robot) (l_name (f_link f))))
      with (x := lr_name root_link) (js := joints_of robot); [|done..].
    intros j lp lc jt gcs _ _ _ _ Hgcs. simpl. by eapply builds_child_names.
Qed.

(** X6: With the link map keyed by link name, every frame of a returned chain is
    named after its own link: the link name followed by "_frame". *)
Theorem frame_names_follow_links (fuel : nat) (robot : Robot) (chain : Chain) :
  lmap_keyed (link_map robot) ->
  build_chain_from_sdf fuel robot = Ok chain ->
  Forall (fun f => f_name f = l_name (f_link f) +:+ "_frame")
         (all_frames (chain_root chain)).
Proof.
  intros Hkeyed (root_link & cs & _ & Hb & ->)%chain_root_pairs.
  unfold all_frames, set_children. simpl. constructor; [done|].
  apply (builds_subframes (link_map robot) (joints_of robot)
           (fun f => f_name f = l_name (f_link f) +:+ "_frame"))
    with (x := lr_name root_link) (js := joints_of robot); [|done..].
  intros j lp lc jt gcs _ _ Hc _ _. simpl. by rewrite (Hkeyed _ _ Hc).
Qed.

(** ** Visual conversion *)

Lemma convert_visuals_acc (visuals : list VisualRecord) (acc : list Visual) :
  fold_left (fun vlist v => vlist ++ [convert_visual v]) visuals acc
  = acc ++ map convert_visual visuals.
Proof.
  revert acc. induction visuals as [|v vs IH]; intros acc; simpl.
  - by rewrite app_nil_r.
  - rewrite IH. by rewrite <- app_assoc.
Qed.

Lemma convert_visuals_map (visuals : list VisualRecord) :
  _convert_visuals visuals = map convert_visual visuals.
Proof. unfold _convert_visuals. by rewrite convert_visuals_acc. Qed.

(** C5: the i-th output Visual comes from the i-th entry; for a cylinder its
    transform is the converted local pose composed on the right with
    [Transform(rot=np.deg2rad([90.0, 0.0, 0.0]))], the rotation built from
    the Euler angles (90, 0, 0) degrees with no position given; for a mesh,
    box or sphere it is the converted local pose itself. *)
Theorem convert_visuals_transform (visuals : list VisualRecord) :
  Forall2 (fun v out =>
             match vr_geometry v with
             | Cylinder _ _ =>
                 v_offset out
                 = tmul (_convert_transform (vr_pose v))
                        (Transform_new (Some (deg2rad [f90; f0; f0])) None)
             | Box _ | Sphere _ | Mesh _ =>
                 v_offset out = _convert_transform (vr_pose v)
             | OtherGeometry => True
             end)
          visuals (_convert_visuals visuals).
Proof.
  rewrite convert_visuals_map.
  induction visuals as [|v vs IH]; simpl; constructor; [|exact IH].
  unfold convert_visual. by destruct (vr_geometry v).
Qed.

(** C6: conversion is a total function (it has no way to raise), it yields one
    Visual per entry, and for an entry whose geometry is none of mesh,
    cylinder, box and sphere both the shape kind and the parameters are
    [None]. *)
Theorem convert_visuals_unknown (visuals : list VisualRecord) :
  Forall2 (fun v out =>
             vr_geometry v = OtherGeometry ->
             v_geom_type out = None /\ v_geom_param out = P_None)
          visuals (_convert_visuals visuals).
Proof.
  rewrite convert_visuals_map.
  induction visuals as [|v vs IH]; simpl; constructor; [|exact IH].
  intros Hg. unfold convert_visual. by rewrite Hg.
Qed.

(** X1: The shape kind and the parameters of each output Visual (lines 22-34):
    a mesh gives "mesh" and its file name, a cylinder "cylinder" and the
    pair of radius and length, a box "box" and its size, a sphere "sphere"
    and its radius. *)
Theorem visual_shape_mapping (visuals : list VisualRecord) :
  Forall2 (fun v out =>
             match vr_geometry v with
             | Mesh filename =>
                 v_geom_type out = Some "mesh" /\ v_geom_param out = P_filename filename
             | Cylinder radius length =>
                 v_geom_type out = Some "cylinder"
                 /\ v_geom_param out = P_radius_length radius length
             | Box size =>
                 v_geom_type out = Some "box" /\ v_geom_param out = P_size size
             | Sphere radius =>
                 v_geom_type out = Some "sphere" /\ v_geom_param out = P_radius radius
             | OtherGeometry => True
             end)
          visuals (_convert_visuals visuals).
Proof.
  rewrite convert_visuals_map.
  induction visuals as [|v vs IH]; simpl; constructor; [|exact IH].
  unfold convert_visual. by destruct (vr_geometry v).
Qed.

(** X2: The conversion keeps the number and the order of the entries: the
    visuals of two lists in a row are the visuals of the one followed by the
    visuals of the other. *)
Theorem convert_visuals_app (visuals1 visuals2 : list VisualRecord) :
  _convert_visuals (visuals1 ++ visuals2)
  = _convert_visuals visuals1 ++ _convert_visuals visuals2
  /\ length (_convert_visuals visuals1) = length visuals1.
Proof. rewrite !convert_visuals_map. split; [apply map_app|apply length_map]. Qed.

End Properties.

(** * Runs on concrete models *)

Module Examples.
Import TermModel Models.

Lemma link_map_of_keyed links : lmap_keyed (link_map_of links).
Proof.
  intros k l Hl. apply elem_of_list_to_map_2 in Hl.
  apply list_elem_of_fmap in Hl as (l' & [= -> ->] & _). done.
Qed.

Lemma edge_intro (joints : list JointRecord) j :
  j ∈ joints -> edge joints (jr_parent j) (jr_child j).
Proof. intros Hj. by exists j. Qed.

Example arm_chain :
  build_chain_from_sdf 3 arm
  = Ok (mkChain
          (mkFrame "A_frame" (mkJoint None (TNew None None) None None)
             (mkLink "A" (TNew None None) [])
             [mkFrame "B_frame"
                (mkJoint (Some "j1")
                   (TMul (TInv (TNew None None))
                         (TNew (Some [0; 0; 0]%Z) (Some [1; 2; 3]%Z)))
                   (Some "revolute") (Some [0; 0; 1]%Z))
                (mkLink "B" (TNew None None)
                   [mkVisual (TMul (TNew None None) (TNew (Some [90; 0; 0]%Z) None))
                             (Some "cylinder") (P_radius_length 1%Z 2%Z);
                    mkVisual (TNew None None) None P_None])
                [mkFrame "C_frame"
                   (mkJoint (Some "j2")
                      (TMul (TInv (TNew (Some [0; 0; 0]%Z) (Some [1; 2; 3]%Z)))
                            (TNew (Some [7; 8; 9]%Z) (Some [4; 5; 6]%Z)))
                      (Some "prismatic") (Some [0; 0; 1]%Z))
                   (mkLink "C" (TNew None None)
                      [mkVisual (TNew None None) (Some "sphere") (P_radius 1%Z)])
                   []]])).
Proof. vm_compute. reflexivity. Qed.

Lemma arm_single_rooted : single_rooted (joints_of arm) "A".
Proof.
  split; [done|]. split; [compute_done|]. split.
  - apply Forall_forall. compute_done.
  - apply Forall_forall. repeat apply Forall_cons_2; [| |apply Forall_nil_2].
    + apply rtc_once. apply (edge_intro (joints_of arm) (joint "j1" "revolute" "A" "B")).
      apply list_elem_of_In. simpl. auto.
    + apply rtc_refl.
Qed.

Lemma arm_lookups_ok : lookups_ok (link_map arm) (joints_of arm).
Proof. unfold lookups_ok. apply Forall_forall. repeat constructor; by eexists. Qed.

Lemma expanded_second (lmap : gmap string LinkRecord) j1 j2 lp lc jt :
  lmap !! jr_parent j1 = Some lp -> lmap !! jr_child j1 = Some lc ->
  JOINT_TYPE_MAP !! jr_type j1 = Some jt ->
  jr_parent j2 = lr_name lc -> jr_parent j1 <> lr_name lc ->
  expanded lmap [j1; j2] (jr_parent j1) j2.
Proof.
  intros Hp Hc Ht Hpar Hne. exists (lr_name lc), [j1], [], [].
  split; [|split; [done|split; [done|]]].
  - eapply (reached_child _ _ _ (jr_parent j1) [] j1 [j2] []); try done; constructor.
  - apply builds_skip; [done|constructor].
Qed.

(** The scan of [two_cycle] clears the flag of the first joint only, and the
    build then recurses without end from link B. *)
Example two_cycle_flags :
  root_flags (joints_of two_cycle) = Ok [false; true]
  /\ map (fun k => negb (disqualified_symmetric (joints_of two_cycle) k)) (range 0 2)
     = [false; false]
  /\ discover_root two_cycle = lookup_link RootSite (link_map two_cycle) "B".
Proof. repeat split; vm_compute; reflexivity. Qed.

(** C1 as stated fails on [two_cycle]: the parent of the second joint is the
    child of the first, and the flag of the second joint stays true. *)
Lemma root_scan_not_symmetric :
  ~ (forall flags i j ji jj,
       root_flags (joints_of two_cycle) = Ok flags ->
       i <> j ->
       joints_of two_cycle !! i = Some ji ->
       joints_of two_cycle !! j = Some jj ->
       jr_parent ji = jr_child jj ->
       flags !! i = Some false).
Proof.
  intros H.
  specialize (H [false; true] 1 0 (joint "j2" "revolute" "B" "A")
                (joint "j1" "revolute" "A" "B")).
  discriminate H; by vm_compute.
Qed.

Lemma joint_offsets_witness :
  exists chain,
    build_chain_from_sdf 3 arm = Ok chain /\
    Forall (joints_expanded_at arm) (chain_root chain :: subframes (chain_root chain)) /\
    Forall (offset_from_joint arm) (parent_child_pairs (chain_root chain)) /\
    _convert_transform None = Transform_new None None.
Proof.
  eexists. split; [vm_compute; reflexivity|].
  apply (joint_offsets 3 arm). vm_compute. reflexivity.
Defined.

Lemma build_single_rooted_witness :
  lmap_keyed (link_map arm) /\
  lookups_ok (link_map arm) (joints_of arm) /\
  single_rooted (joints_of arm) "A" /\
  exists root_link,
    link_map arm !! "A" = Some root_link /\
    discover_root arm = Ok root_link /\
    forall fuel, length (joints_of arm) < fuel ->
      exists chain,
        build_chain_from_sdf fuel arm = Ok chain /\
        f_name (chain_root chain) = "A" +:+ "_frame" /\
        l_name (f_link (chain_root chain)) = "A" /\
        length (subframes (chain_root chain)) = length (joints_of arm).
Proof.
  split; [apply link_map_of_keyed|]. split; [apply arm_lookups_ok|].
  split; [apply arm_single_rooted|].
  apply (build_single_rooted arm "A");
    [apply link_map_of_keyed|apply arm_lookups_ok|apply arm_single_rooted].
Defined.

(** C4 as stated fails on [stray_loop]: the joint set has a joint whose
    parent is its child, and the call on the frame of link A returns. *)
Lemma stray_loop_returns :
  (exists j, j ∈ joints_of stray_loop /\ jr_parent j = jr_child j) /\
  ~ acyclic (joints_of stray_loop) /\
  ~ (forall fuel,
       _build_chain_recurse fuel frame_A (link_map stray_loop) (joints_of stray_loop)
       = NoFuel).
Proof.
  split; [|split].
  - exists (joint "j2" "fixed" "C" "C"). split; [|done].
    apply list_elem_of_In. simpl. auto.
  - intros H. apply (H "C"), tc_once.
    apply (edge_intro (joints_of stray_loop) (joint "j2" "fixed" "C" "C")).
    apply list_elem_of_In. simpl. auto.
  - intros H. specialize (H 2). vm_compute in H. discriminate H.
Qed.

Example stray_loop_chain :
  exists chain, build_chain_from_sdf 2 stray_loop = Ok chain
                /\ map f_name (subframes (chain_root chain)) = ["B_frame"].
Proof. eexists. split; vm_compute; reflexivity. Qed.

Lemma stray_loop_no_cycle_from_A : ~ has_cycle_from (joints_of stray_loop) "A".
Proof.
  assert (exists cs, _build_chain_recurse 2 frame_A (link_map stray_loop)
                       (joints_of stray_loop) = Ok cs) as [cs Hcs].
  { eexists. vm_compute. reflexivity. }
  apply recurse_builds in Hcs.
  exact (builds_root_no_cycle _ _ _ _ (link_map_of_keyed _) Hcs).
Qed.

Lemma recursion_termination_witness :
  (forall fuel, length (joints_of stray_loop) < fuel ->
     _build_chain_recurse fuel frame_A (link_map stray_loop) (joints_of stray_loop)
     <> NoFuel) /\
  (forall fuel, length (joints_of arm) < fuel ->
     _build_chain_recurse fuel frame_A (link_map arm) (joints_of arm) <> NoFuel) /\
  (forall fuel,
     _build_chain_recurse fuel frame_A (link_map loop_below) (joints_of loop_below)
     = NoFuel).
Proof.
  split; [|split].
  - apply (proj1 (recursion_termination (link_map stray_loop) (joints_of stray_loop)
                    frame_A (link_map_of_keyed _))).
    apply stray_loop_no_cycle_from_A.
  - apply (proj1 (proj2 (recursion_termination (link_map arm) (joints_of arm) frame_A
                           (link_map_of_keyed _)))).
    apply (single_rooted_acyclic _ "A"), arm_single_rooted.
  - apply (proj2 (proj2 (recursion_termination (link_map loop_below) (joints_of loop_below)
                           frame_A (link_map_of_keyed _)))).
    + unfold lookups_ok. apply Forall_forall. repeat constructor; by eexists.
    + exists "B". split.
      * apply rtc_once.
        apply (edge_intro (joints_of loop_below) (joint "j1" "revolute" "A" "B")).
        apply list_elem_of_In. simpl. auto.
      * apply tc_once.
        apply (edge_intro (joints_of loop_below) (joint "j2" "fixed" "B" "B")).
        apply list_elem_of_In. simpl. auto.
Defined.

Lemma joint_type_lookup_witness :
  (exists chain, build_chain_from_sdf 3 arm = Ok chain /\
     Forall (type_from_joint arm) (parent_child_pairs (chain_root chain))) /\
  (exists e f,
     (forall fuel, f <= fuel -> build_chain_from_sdf fuel ball_joint = Raise e) /\
     (forall fuel chain, build_chain_from_sdf fuel ball_joint <> Ok chain) /\
     is_lookup_error e = true /\
     (is_Some (link_map ball_joint !! "B") -> is_Some (link_map ball_joint !! "C") ->
      e = KeyError_joint_type "ball")).
Proof.
  split.
  - eexists. split; [vm_compute; reflexivity|].
    apply (proj1 (joint_type_lookup arm) 3). vm_compute. reflexivity.
  - apply (proj1 (proj2 (joint_type_lookup ball_joint))
             (link "A" None []) (joint "j2" "ball" "B" "C")).
    + vm_compute. reflexivity.
    + by eapply (expanded_second (link_map ball_joint) (joint "j1" "revolute" "A" "B")).
    + vm_compute. reflexivity.
Defined.

Lemma missing_child_link_witness :
  discover_root missing_child = Ok (link "A" None []) /\
  link_map missing_child !! "Z" = None /\
  exists e f,
    (forall fuel, f <= fuel -> build_chain_from_sdf fuel missing_child = Raise e) /\
    (forall fuel chain, build_chain_from_sdf fuel missing_child <> Ok chain) /\
    (exists s k, e = KeyError_link s k /\ link_map missing_child !! k = None) /\
    (lmap_keyed (link_map missing_child) -> e = KeyError_link ChildSite "Z").
Proof.
  split; [vm_compute; reflexivity|]. split; [vm_compute; reflexivity|].
  apply (missing_child_link missing_child (link "A" None []) (joint "j2" "fixed" "B" "Z")).
  - vm_compute. reflexivity.
  - by eapply (expanded_second (link_map missing_child) (joint "j1" "revolute" "A" "B")).
  - vm_compute. reflexivity.
Defined.

Example missing_child_run :
  build_chain_from_sdf 3 missing_child = Raise (KeyError_link ChildSite "Z").
Proof. vm_compute. reflexivity. Qed.

Example ball_joint_run :
  build_chain_from_sdf 3 ball_joint = Raise (KeyError_joint_type "ball").
Proof. vm_compute. reflexivity. Qed.

Lemma build_no_root_witness :
  discover_root (mkRobot (link_map_of links3) []) = Raise (UnboundLocalError "root_link")
  /\ build_chain_from_sdf 5 (mkRobot (link_map_of links3) [])
     = Raise (UnboundLocalError "root_link").
Proof.
  apply (build_no_root (mkRobot (link_map_of links3) []) 5).
  simpl. intros k Hk. lia.
Defined.

(** In [ring] every joint is disqualified. *)
Example ring_no_root :
  root_flags (joints_of ring) = Ok [false; false; false]
  /\ build_chain_from_sdf 5 ring = Raise (UnboundLocalError "root_link").
Proof. split; vm_compute; reflexivity. Qed.

Lemma parent_lookup_never_fails_witness :
  build_chain_from_sdf 3 missing_child = Raise (KeyError_link ChildSite "Z") /\
  ChildSite <> ParentSite /\
  (ChildSite = ChildSite ->
   link_map missing_child !! "Z" = None
   /\ exists j, j ∈ joints_of missing_child /\ jr_child j = "Z").
Proof.
  split; [vm_compute; reflexivity|].
  apply (parent_lookup_never_fails 3 missing_child ChildSite "Z");
    [apply link_map_of_keyed|vm_compute; reflexivity].
Defined.

Lemma acyclic_by_rank (joints : list JointRecord) (rank : string -> nat) :
  Forall (fun j => rank (jr_child j) < rank (jr_parent j)) joints -> acyclic joints.
Proof.
  intros Hrank x Hxx.
  assert (forall a b, tc (edge joints) a b -> rank b < rank a) as Hdec.
  { induction 1 as [a b (j & Hj & Ha & Hb)|a b c (j & Hj & Ha & Hb) _ IH].
    - rewrite <- Ha, <- Hb. by apply (proj1 (Forall_forall _ _) Hrank).
    - pose proof (proj1 (Forall_forall _ _) Hrank j Hj) as Hlt. simpl in Hlt.
      rewrite Ha, Hb in Hlt. lia. }
  apply Hdec in Hxx. lia.
Qed.

Lemma forest_acyclic : acyclic (joints_of forest).
Proof.
  apply (acyclic_by_rank _ forest_rank).
  repeat first [apply Forall_nil_2 | apply Forall_cons_2; [vm_compute; lia|]].
Qed.

Lemma forest_lookups_ok : lookups_ok (link_map forest) (joints_of forest).
Proof. unfold lookups_ok. apply Forall_forall. repeat constructor; by eexists. Qed.

Lemma root_frame_content_witness :
  exists chain root_link,
    build_chain_from_sdf 3 arm = Ok chain /\
    discover_root arm = Ok root_link /\
    f_name (chain_root chain) = lr_name root_link +:+ "_frame" /\
    f_joint (chain_root chain)
    = mkJoint None (_convert_transform (lr_pose root_link)) None None /\
    f_link (chain_root chain)
    = mkLink (lr_name root_link) (Transform_new None None)
             (_convert_visuals (lr_visuals root_link)).
Proof.
  eexists.
  destruct (root_frame_content 3 arm _ ltac:(vm_compute; reflexivity)) as [root_link H].
  exists root_link. split; [vm_compute; reflexivity|exact H].
Defined.

Lemma child_frame_content_witness :
  exists chain,
    build_chain_from_sdf 3 arm = Ok chain /\
    Forall (link_from_joint arm) (parent_child_pairs (chain_root chain)).
Proof.
  eexists. split; [vm_compute; reflexivity|].
  apply (child_frame_content 3 arm). vm_compute. reflexivity.
Defined.

Lemma children_follow_joint_order_witness :
  exists chain,
    build_chain_from_sdf 3 arm = Ok chain /\
    Forall (fun f => map f_name (f_children f)
                     = child_frame_names (joints_of arm) (l_name (f_link f)))
           (all_frames (chain_root chain)).
Proof.
  eexists. split; [vm_compute; reflexivity|].
  apply (children_follow_joint_order 3 arm). vm_compute. reflexivity.
Defined.

Lemma frame_names_follow_links_witness :
  exists chain,
    build_chain_from_sdf 3 arm = Ok chain /\
    Forall (fun f => f_name f = l_name (f_link f) +:+ "_frame")
           (all_frames (chain_root chain)).
Proof.
  eexists. split; [vm_compute; reflexivity|].
  apply (frame_names_follow_links 3 arm);
    [apply link_map_of_keyed|vm_compute; reflexivity].
Defined.

Lemma frames_are_descendants_witness :
  exists chain,
    build_chain_from_sdf 3 forest = Ok chain /\
    ("D" ∈ map (fun f => l_name (f_link f)) (subframes (chain_root chain))
     <-> tc (edge (joints_of forest)) (l_name (f_link (chain_root chain))) "D").
Proof.
  eexists. split; [vm_compute; reflexivity|].
  apply (frames_are_descendants 3 forest);
    [apply link_map_of_keyed|vm_compute; reflexivity].
Defined.

(** The second tree of [forest] gets no frame. *)
Example forest_chain :
  exists chain,
    build_chain_from_sdf 3 forest = Ok chain /\
    map f_name (all_frames (chain_root chain)) = ["A_frame"; "B_frame"].
Proof. eexists. split; vm_compute; reflexivity. Qed.

Lemma returned_chain_no_cycle_witness :
  exists chain,
    build_chain_from_sdf 2 stray_loop = Ok chain /\
    ~ has_cycle_from (joints_of stray_loop) (l_name (f_link (chain_root chain))).
Proof.
  eexists. split; [vm_compute; reflexivity|].
  apply (returned_chain_no_cycle 2 stray_loop);
    [apply link_map_of_keyed|vm_compute; reflexivity].
Defined.

Lemma build_exceptions_witness :
  (build_chain_from_sdf 3 missing_child = Raise (KeyError_link ChildSite "Z") /\
   (KeyError_link ChildSite "Z" = UnboundLocalError "root_link" \/
    exists j, j ∈ joints_of missing_child /\
      ((exists s, KeyError_link ChildSite "Z" = KeyError_link s (jr_parent j)
                  /\ s <> ChildSite /\ link_map missing_child !! jr_parent j = None) \/
       (KeyError_link ChildSite "Z" = KeyError_link ChildSite (jr_child j)
        /\ link_map missing_child !! jr_child j = None) \/
       (KeyError_link ChildSite "Z" = KeyError_joint_type (jr_type j)
        /\ JOINT_TYPE_MAP !! jr_type j = None)))) /\
  (build_chain_from_sdf 3 two_cycle = NoFuel /\
   exists root_link, discover_root two_cycle = Ok root_link /\
                     has_cycle_from (joints_of two_cycle) (lr_name root_link)).
Proof.
  split; (split; [vm_compute; reflexivity|]).
  - apply (proj1 (build_exceptions 3 missing_child)). vm_compute. reflexivity.
  - apply (proj2 (build_exceptions 3 two_cycle));
      [apply link_map_of_keyed|simpl; lia|vm_compute; reflexivity].
Defined.

Lemma root_lookup_error_witness :
  build_chain_from_sdf 3 missing_root = Raise (KeyError_link RootSite "Y").
Proof.
  apply (proj2 (root_lookup_error 3 missing_root "Y")).
  exists (joint "j1" "revolute" "Y" "A"). repeat split; vm_compute; reflexivity.
Defined.

Lemma root_flags_symmetric_witness :
  no_mutual_pair (joints_of forest) /\
  root_flags (joints_of forest)
  = Ok (map (fun k => negb (disqualified_symmetric (joints_of forest) k))
            (range 0 (length (joints_of forest)))).
Proof.
  split; [apply acyclic_no_mutual_pair, forest_acyclic|].
  apply (root_flags_symmetric (joints_of forest)).
  apply acyclic_no_mutual_pair, forest_acyclic.
Defined.

Lemma acyclic_root_found_witness :
  acyclic (joints_of forest) /\
  exists jk, jk ∈ joints_of forest /\
             discover_root forest = lookup_link RootSite (link_map forest) (jr_parent jk) /\
             forall j, j ∈ joints_of forest -> jr_child j <> jr_parent jk.
Proof.
  split; [apply forest_acyclic|].
  apply (acyclic_root_found forest); [apply forest_acyclic|done].
Defined.

Lemma frames_are_distinct_witness :
  exists chain,
    build_chain_from_sdf 3 arm = Ok chain /\
    NoDup (map (fun f => l_name (f_link f)) (subframes (chain_root chain))) /\
    length (subframes (chain_root chain)) <= length (joints_of arm).
Proof.
  eexists. split; [vm_compute; reflexivity|].
  apply (frames_are_distinct 3 arm);
    [apply link_map_of_keyed|compute_done|vm_compute; reflexivity].
Defined.

Lemma acyclic_build_returns_witness :
  exists chain,
    build_chain_from_sdf 3 forest = Ok chain /\
    forall j, j ∈ joints_of forest -> jr_child j <> l_name (f_link (chain_root chain)).
Proof.
  apply (acyclic_build_returns forest 3);
    [apply link_map_of_keyed|apply forest_lookups_ok|apply forest_acyclic|done|simpl; lia].
Defined.

End Examples.

Module TranslationExamples.
Import TranslationModel TranslationModels.

Lemma translation_cancel (a b : Transform) : tmul a (tmul (tinverse a) b) = b.
Proof.
  destruct a as [[a1 a2] a3], b as [[b1 b2] b3]. unfold tmul, tinverse. simpl.
  unfold add, neg. simpl. repeat f_equal; lia.
Qed.

Lemma slider_keyed : lmap_keyed (link_map slider).
Proof.
  intros k l Hl. apply elem_of_list_to_map_2 in Hl.
  apply list_elem_of_fmap in Hl as (l' & [= -> ->] & _). done.
Qed.

(** The offsets of [slider] are the differences of the link positions, and
    their sums along the chain are the link positions again. *)
Example slider_poses :
  exists chain,
    build_chain_from_sdf 3 slider = Ok chain /\
    map (fun f => j_offset (f_joint f)) (all_frames (chain_root chain))
    = [(1, 0, 0); (0, 2, 0); (3, 0, 7)]%Z /\
    map snd (world_poses (chain_root chain)) = [(1, 0, 0); (1, 2, 0); (4, 2, 7)]%Z.
Proof. eexists. repeat split; vm_compute; reflexivity. Qed.

Lemma world_poses_are_link_poses_witness :
  exists chain,
    build_chain_from_sdf 3 slider = Ok chain /\
    Forall (at_link_pose (link_map slider)) (world_poses (chain_root chain)).
Proof.
  eexists. split; [vm_compute; reflexivity|].
  apply (world_poses_are_link_poses 3 slider);
    [apply translation_cancel|apply slider_keyed|vm_compute; reflexivity].
Defined.

End TranslationExamples.
